(** * Pistache HTTP headers ([src/http_header.h]): a shallow embedding

    The header file declares the identity-tag hash ([detail::hash]), the
    [NAME] macro, the [Encoding] and MIME enumerations, [MediaType] with its
    equality, the [Header] base class, the [IsHeader] trait, [header_cast]
    and the seven concrete header classes.  The definitions below follow the
    header line by line; member functions that are only declared there
    ([parse], [parseRaw], [write], [fromString], [toString],
    [encodingString]) are modelled from the specification and marked so. *)

From Stdlib Require Import ZArith List Ascii String Lia Bool.
From stdpp Require Import base tactics option list gmap finite strings.
Import ListNotations.

Local Open Scope Z_scope.

(** ** Machine integers and C strings *)

(** [uint64_t] / [unsigned long long] arithmetic wraps modulo 2^64. *)
Definition u64 (z : Z) : Z := z mod 2 ^ 64.

(** [std::string]: a sequence of bytes. *)
Abbreviation std_string := (list ascii).

(** The text of a string literal, as a [std::string]. *)
Definition lit (s : string) : std_string := list_ascii_of_string s.

(** The numeric value (0..255) of a byte. *)
Definition byte_val (a : ascii) : Z := Z.of_N (N_of_ascii a).

(** The value of a plain [char] object holding the byte [b].  Whether plain
    [char] is signed is fixed by the platform ABI (signed on x86 and x86-64
    Linux, unsigned on ARM Linux), so it is a parameter here. *)
Definition char_of_byte (char_is_signed : bool) (b : Z) : Z :=
  if char_is_signed && (128 <=? b) then b - 256 else b.

(** The [char] array behind a [const char*] that points at the bytes [bs]
    followed by the terminating NUL and then by whatever memory follows. *)
Definition c_str (char_is_signed : bool) (bs : list Z) (beyond : list Z) : list Z :=
  map (char_of_byte char_is_signed) bs ++ 0 :: beyond.

Definition string_literal (char_is_signed : bool) (s : string) : list Z :=
  c_str char_is_signed (map byte_val (lit s)) [].

(** ** namespace detail: compile-time hashing (lines 24-36) *)

Module detail.

Definition basis : Z := 14695981039346656037.
Definition prime : Z := 1099511628211.

(** [hash_one(c, remain, value)]: [remain] is the array from the pointer
    [remain] onwards, so [remain[0]] is its head and [remain + 1] its tail.
    In [(value ^ c)] the [char] [c] is converted to [unsigned long long],
    that is taken modulo 2^64 (sign extension for a negative [c]).
    Reading past the end of the array has no defined result: [None]. *)
Fixpoint hash_one (c : Z) (remain : list Z) (value : Z) : option Z :=
  if c =? 0 then Some value
  else match remain with
       | [] => None
       | r0 :: remain' =>
           hash_one r0 remain' (u64 (Z.lxor value (u64 c) * prime))
       end.

Definition hash (str : list Z) : option Z :=
  match str with
  | [] => None
  | c :: remain => hash_one c remain basis
  end.

(** The 64-bit FNV-1a hash of a byte sequence, as the published algorithm
    states it: start from the offset basis; for each octet, XOR it into the
    accumulator, then multiply by the prime modulo 2^64. *)
Definition fnv1a_step (acc : Z) (octet : Z) : Z :=
  (Z.lxor acc octet * prime) mod 2 ^ 64.

Definition fnv1a (octets : list Z) : Z :=
  fold_left fnv1a_step octets basis.

End detail.

(** ** The [NAME] macro (lines 41-51) *)

(** [static constexpr uint64_t Hash = detail::hash(header_name)].  A string
    literal always carries its terminator, so the hash is defined
    ([NAME_Hash_defined] below); the fallback arm is never taken. *)
Definition NAME_Hash (char_is_signed : bool) (header_name : string) : Z :=
  match detail.hash (string_literal char_is_signed header_name) with
  | Some v => v
  | None => 0
  end.

(** ** Text helpers used by the parse and write members *)

(** [std::ostream], as the text written to it so far; [os << x] appends. *)
Abbreviation ostream := (list ascii).

Definition is_digit (c : ascii) : bool :=
  (48 <=? byte_val c) && (byte_val c <=? 57).

Definition digit_val (c : ascii) : Z := byte_val c - 48.

Definition digit_char (d : Z) : ascii := ascii_of_N (Z.to_N (48 + d)).

(** [std::isspace] in the C locale: space, and the controls 9 to 13. *)
Definition isspace (c : ascii) : bool :=
  (byte_val c =? 32) || ((9 <=? byte_val c) && (byte_val c <=? 13)).

Fixpoint skip_space (s : std_string) : std_string :=
  match s with
  | c :: s' => if isspace c then skip_space s' else s
  | [] => []
  end.

(** Leading and trailing whitespace removed. *)
Definition trim (s : std_string) : std_string :=
  rev (skip_space (rev (skip_space s))).

(** The decimal digits of [n], most significant first, at most [fuel] of
    them; what [os << n] prints for an unsigned [n] below [10 ^ fuel]. *)
Fixpoint decimal_digits (fuel : nat) (n : Z) (acc : std_string) : std_string :=
  match fuel with
  | O => acc
  | S fuel' =>
      let acc' := digit_char (n mod 10) :: acc in
      if n / 10 =? 0 then acc' else decimal_digits fuel' (n / 10) acc'
  end.

Definition to_decimal (n : Z) : std_string :=
  if n <? 0 then "-"%char :: decimal_digits 20 (- n) []
  else decimal_digits 20 n [].

(** The number a run of digits denotes (no wrap-around). *)
Fixpoint decimal_value (s : std_string) (acc : Z) : Z :=
  match s with
  | c :: s' => decimal_value s' (acc * 10 + digit_val c)
  | [] => acc
  end.

(** Splitting at the first occurrence of [sep]: the text before it and,
    when [sep] occurs, the text after it. *)
Fixpoint split_first (sep : ascii) (s : std_string)
  : std_string * option std_string :=
  match s with
  | [] => ([], None)
  | c :: s' =>
      if bool_decide (c = sep) then ([], Some s')
      else let '(l, r) := split_first sep s' in (c :: l, r)
  end.

(** Splitting at the last occurrence of [sep], if there is one. *)
Fixpoint split_last (sep : ascii) (s : std_string)
  : option (std_string * std_string) :=
  match s with
  | [] => None
  | c :: s' =>
      match split_last sep s' with
      | Some (l, r) => Some (c :: l, r)
      | None => if bool_decide (c = sep) then Some ([], s') else None
      end
  end.

(** The maximal runs of non-whitespace characters, in order. *)
Fixpoint split_whitespace (s : std_string) : list std_string :=
  match s with
  | [] => []
  | c :: s' =>
      if isspace c then split_whitespace s'
      else match s' with
           | [] => [[c]]
           | c' :: _ =>
               if isspace c' then [c] :: split_whitespace s'
               else match split_whitespace s' with
                    | t :: ts => (c :: t) :: ts
                    | [] => [[c]]
                    end
           end
  end.

(** Tokens joined by a single space. *)
Fixpoint join_space (tokens : list std_string) : std_string :=
  match tokens with
  | [] => []
  | [t] => t
  | t :: rest => t ++ " "%char :: join_space rest
  end.

(** How a parse entry point ends: the value was stored, or the text was
    rejected as a malformed value of the named header. *)
Inductive parse_status :=
| Parsed
| MalformedHeaderValue (header_name : string) (text : std_string).

(** ** Content codings (lines 53-62) *)

Inductive Encoding := Gzip | Compress | Deflate | Identity | Unknown.

Global Instance Encoding_eq_dec : EqDecision Encoding.
Proof. solve_decision. Defined.

(** Modelled from the spec: [encodingString] is declared at line 62 and
    defined elsewhere.  Each member serializes to its lowercase literal;
    for [Unknown] the literal [unknown], the one policy the specification
    names. *)
Definition encodingString (encoding : Encoding) : string :=
  match encoding with
  | Gzip => "gzip"
  | Compress => "compress"
  | Deflate => "deflate"
  | Identity => "identity"
  | Unknown => "unknown"
  end.

(** Modelled from the spec: the decoding direction of the same closed set,
    case-sensitive; any other token is [Unknown]. *)
Definition encoding_of_token (token : std_string) : Encoding :=
  if bool_decide (token = lit "gzip") then Gzip
  else if bool_decide (token = lit "compress") then Compress
  else if bool_decide (token = lit "deflate") then Deflate
  else if bool_decide (token = lit "identity") then Identity
  else Unknown.

(** ** namespace Mime (lines 64-162) *)

Module Mime.

Module Type_.
Inductive t :=
  Star | Text | Image | Audio | Video | Application | Message | Multipart
| Ext.
End Type_.

Module Subtype.
Inductive t :=
  Star | Plain | Html | Xhtml | Xml | Javascript | Css
| Json | FormUrlEncoded
| Png | Gif | Bmp | Jpeg
| Ext.
End Subtype.

Module Suffix.
Inductive t :=
  Json | Ber | Der | Fastinfoset | Wbxml | Zip | Xml
| None
| Ext.
End Suffix.

Global Instance Type_eq_dec : EqDecision Type_.t.
Proof. solve_decision. Defined.
Global Instance Subtype_eq_dec : EqDecision Subtype.t.
Proof. solve_decision. Defined.
Global Instance Suffix_eq_dec : EqDecision Suffix.t.
Proof. solve_decision. Defined.

(** The enumerators of each enumeration, in declaration order. *)
Global Instance Type_finite : Finite Type_.t := {|
  enum := [ Type_.Star; Type_.Text; Type_.Image; Type_.Audio; Type_.Video;
            Type_.Application; Type_.Message; Type_.Multipart; Type_.Ext ];
  NoDup_enum := ltac:(apply (bool_decide_unpack _); exact I);
  elem_of_enum := ltac:(intros []; apply (bool_decide_unpack _); exact I)
|}.

Global Instance Subtype_finite : Finite Subtype.t := {|
  enum := [ Subtype.Star; Subtype.Plain; Subtype.Html; Subtype.Xhtml;
            Subtype.Xml; Subtype.Javascript; Subtype.Css; Subtype.Json;
            Subtype.FormUrlEncoded; Subtype.Png; Subtype.Gif; Subtype.Bmp;
            Subtype.Jpeg; Subtype.Ext ];
  NoDup_enum := ltac:(apply (bool_decide_unpack _); exact I);
  elem_of_enum := ltac:(intros []; apply (bool_decide_unpack _); exact I)
|}.

Global Instance Suffix_finite : Finite Suffix.t := {|
  enum := [ Suffix.Json; Suffix.Ber; Suffix.Der; Suffix.Fastinfoset;
            Suffix.Wbxml; Suffix.Zip; Suffix.Xml; Suffix.None; Suffix.Ext ];
  NoDup_enum := ltac:(apply (bool_decide_unpack _); exact I);
  elem_of_enum := ltac:(intros []; apply (bool_decide_unpack _); exact I)
|}.

(** The X-macro tables [MIME_TYPES], [MIME_SUBTYPES] and [MIME_SUFFIXES]:
    every enumerator but the trailing [Ext] (and [None]) with its token. *)
Definition MIME_TYPES : list (Type_.t * string) :=
  [ (Type_.Star, "*"); (Type_.Text, "text"); (Type_.Image, "image");
    (Type_.Audio, "audio"); (Type_.Video, "video");
    (Type_.Application, "application"); (Type_.Message, "message");
    (Type_.Multipart, "multipart") ]%string.

Definition MIME_SUBTYPES : list (Subtype.t * string) :=
  [ (Subtype.Star, "*"); (Subtype.Plain, "plain"); (Subtype.Html, "html");
    (Subtype.Xhtml, "xhtml"); (Subtype.Xml, "xml");
    (Subtype.Javascript, "javascript"); (Subtype.Css, "css");
    (Subtype.Json, "json");
    (Subtype.FormUrlEncoded, "x-www-form-urlencoded");
    (Subtype.Png, "png"); (Subtype.Gif, "gif"); (Subtype.Bmp, "bmp");
    (Subtype.Jpeg, "jpeg") ]%string.

Definition MIME_SUFFIXES : list (Suffix.t * string * string) :=
  [ (Suffix.Json, "json", "JavaScript Object Notation");
    (Suffix.Ber, "ber", "Basic Encoding Rules");
    (Suffix.Der, "der", "Distinguished Encoding Rules");
    (Suffix.Fastinfoset, "fastinfoset", "Fast Infoset");
    (Suffix.Wbxml, "wbxml", "WAP Binary XML");
    (Suffix.Zip, "zip", "ZIP file storage");
    (Suffix.Xml, "xml", "Extensible Markup Language") ]%string.

(** [class MediaType]: three public enumeration-valued members. *)
Record MediaType := mkMediaType {
  top : Type_.t;
  sub : Subtype.t;
  suffix : Suffix.t
}.

Global Instance MediaType_eq_dec : EqDecision MediaType.
Proof. solve_decision. Defined.

(** The three constructors. *)
Definition MediaType0 : MediaType :=
  mkMediaType Type_.Ext Subtype.Ext Suffix.None.
Definition MediaType2 (top : Type_.t) (sub : Subtype.t) : MediaType :=
  mkMediaType top sub Suffix.None.
Definition MediaType3 (top : Type_.t) (sub : Subtype.t) (suffix : Suffix.t)
  : MediaType :=
  mkMediaType top sub suffix.

(** Every value the class can hold. *)
Definition all_MediaTypes : list MediaType :=
  t ← enum Type_.t; s ← enum Subtype.t; x ← enum Suffix.t;
  [ mkMediaType t s x ].

(** [operator==] (lines 158-160). *)
Definition eq_op (lhs rhs : MediaType) : bool :=
  bool_decide (top lhs = top rhs) && bool_decide (sub lhs = sub rhs).

(** Modelled from the spec: the token tables read in both directions; a
    token outside a table is that enumeration's [Ext], and [Ext] (like
    [None]) has no token. *)
Definition type_of_token (token : std_string) : Type_.t :=
  match List.find (fun e => bool_decide (lit (snd e) = token)) MIME_TYPES with
  | Some e => fst e
  | None => Type_.Ext
  end.

Definition subtype_of_token (token : std_string) : Subtype.t :=
  match List.find (fun e => bool_decide (lit (snd e) = token)) MIME_SUBTYPES with
  | Some e => fst e
  | None => Subtype.Ext
  end.

Definition suffix_of_token (token : std_string) : Suffix.t :=
  match List.find (fun e => bool_decide (lit (snd (fst e)) = token))
                  MIME_SUFFIXES with
  | Some e => fst (fst e)
  | None => Suffix.Ext
  end.

Definition token_of_type (v : Type_.t) : option string :=
  snd <$> List.find (fun e => bool_decide (fst e = v)) MIME_TYPES.

Definition token_of_subtype (v : Subtype.t) : option string :=
  snd <$> List.find (fun e => bool_decide (fst e = v)) MIME_SUBTYPES.

Definition token_of_suffix (v : Suffix.t) : option string :=
  (fun e => snd (fst e)) <$>
    List.find (fun e => bool_decide (fst (fst e) = v)) MIME_SUFFIXES.

(** Modelled from the spec: [MediaType::fromRaw] and [fromString] are
    declared at lines 150-153 and defined elsewhere.  Split on the first
    [/]; split the remainder on the first [+], if present, into subtype
    and suffix; map each segment through its table; an absent suffix is
    [None].  A text without [/] is outside the grammar and gives the
    default-constructed value. *)
Definition fromRaw (str : std_string) : MediaType :=
  match split_first "/" str with
  | (_, Datatypes.None) => MediaType0
  | (t, Some rest) =>
      let '(s, x) := split_first "+" rest in
      mkMediaType (type_of_token t) (subtype_of_token s)
        match x with
        | Some x => suffix_of_token x
        | Datatypes.None => Suffix.None
        end
  end.

Definition fromString (str : std_string) : MediaType := fromRaw str.

(** Modelled from the spec: [MediaType::toString] is declared at line 155
    and defined elsewhere.  It renders the top token, [/] and the sub
    token, then [+] and the suffix token unless the suffix is [None].  The
    enumerations are plain, so an [Ext] member has no text to render: no
    result. *)
Definition toString (m : MediaType) : option std_string :=
  t ← token_of_type (top m);
  s ← token_of_subtype (sub m);
  match suffix m with
  | Suffix.None => Some (lit t ++ "/"%char :: lit s)
  | x =>
      x ← token_of_suffix x;
      Some (lit t ++ "/"%char :: lit s ++ "+"%char :: lit x)
  end.

(** Modelled from the spec: the header declares [toString] with a
    [std::string] result for every value.  This is the text of [toString]
    above where it has one; an [Ext] member, a plain enumerator without a
    text of its own, is rendered as the empty token. *)
Definition toString_total (m : MediaType) : std_string :=
  lit (default ""%string (token_of_type (top m)))
  ++ "/"%char :: lit (default ""%string (token_of_subtype (sub m)))
  ++ match suffix m with
     | Suffix.None => []
     | x => "+"%char :: lit (default ""%string (token_of_suffix x))
     end.

End Mime.

Infix "==" := Mime.eq_op (at level 70, no associativity).

(** The macros [MIME] and [MIME3] (lines 164-168). *)
Definition MIME := Mime.MediaType2.
Definition MIME3 := Mime.MediaType3.

(** ** class Header (lines 171-184) *)

(** The abstract base class, as the interface its overriders implement.  Only
    the two virtuals whose overriders have bodies in the header (through
    [NAME]) are members here; [parse], [parseRaw] and [write] are treated
    with the classes that override them. *)
Class Header (T : Type) := {
  name : T → string;   (* virtual const char *name() const = 0 *)
  hash : T → Z         (* virtual uint64_t hash() const = 0  *)
}.

(** Member functions thread the object they are called on. *)
Definition method (T A : Type) : Type := T → A * T.

(** ** What a template can see of a class type *)

(** What a name can denote inside a class. *)
Inductive entity :=
| static_data_member
| nonstatic_data_member
| enumerator
| static_member_function      (* a single one, not a template *)
| nonstatic_member_function   (* or an overloaded set *)
| member_type.                (* a nested class, enumeration, alias or
                                 template *)

(** A member as code outside the class sees it: what it is, whether it is
    public, whether its declared type is a reference type, and, for a
    constant of type [const char*], the string it is initialised with. *)
Record member := mkMember {
  member_entity : entity;
  member_public : bool;
  member_reference : bool;
  member_value : option string
}.

Global Instance entity_eq_dec : EqDecision entity.
Proof. solve_decision. Defined.
Global Instance member_eq_dec : EqDecision member.
Proof. solve_decision. Defined.

(** A class type as the templates below inspect it: whether [Header] is a
    base of it, what the name [Name] denotes in it, if anything, and its
    static member [Hash], if declared. *)
Record ClassDecl := mkClassDecl {
  is_base_of_Header : bool;
  member_Name : option member;
  static_Hash : option Z
}.

Global Instance ClassDecl_eq_dec : EqDecision ClassDecl.
Proof. solve_decision. Defined.

(** The string of the static data member [Name], when the class has one. *)
Definition static_Name (T : ClassDecl) : option string :=
  match member_Name T with
  | Some m =>
      match member_entity m with
      | static_data_member => member_value m
      | _ => None
      end
  | None => None
  end.

(** What [NAME(header_name)] declares as [Name] (line 45), in the public
    section where the seven classes use the macro. *)
Definition NAME_Name (header_name : string) : member :=
  mkMember static_data_member true false (Some header_name).

(** [Header] itself: [std::is_base_of<Header, Header>] holds, and the class
    has neither member. *)
Definition Header_decl : ClassDecl := mkClassDecl true None None.

(** ** template IsHeader (lines 186-197) *)

Module IsHeader.

Inductive bool_constant := true_type | false_type.

(** Whether the parameter type of the first [test], a pointer to
    [decltype(T::Name)], is well-formed where the trait names it: the
    member must be accessible there, hence public; [T::Name] must be an
    expression of an unevaluated operand, which a data member (static or
    not), an enumerator and a static member function are and a non-static
    member function and a type are not; and there is no pointer to a
    reference type. *)
Definition pointer_to_decltype (m : member) : bool :=
  member_public m &&
  match member_entity m with
  | static_data_member | nonstatic_data_member => negb (member_reference m)
  | enumerator | static_member_function => true
  | nonstatic_member_function | member_type => false
  end.

(** Overload resolution between the [test] taking a pointer to
    [decltype(T::Name)] and the variadic [test] on the argument [nullptr]:
    the first is viable exactly when its parameter type is well-formed, and
    then it is the better match. *)
Definition test (T : ClassDecl) : bool_constant :=
  match member_Name T with
  | Some m => if pointer_to_decltype m then true_type else false_type
  | None => false_type
  end.

Definition is_same (a b : bool_constant) : bool :=
  match a, b with
  | true_type, true_type | false_type, false_type => true
  | _, _ => false
  end.

Definition value (H : ClassDecl) : bool :=
  is_base_of_Header H && is_same (test H) true_type.

End IsHeader.

(** ** Shared pointers *)

Inductive cv := non_const | const.

(** [std::shared_ptr<T>] ([q = non_const]) or [std::shared_ptr<const T>]
    ([q = const]): the stored pointer and the control block it shares
    ownership through; both absent for a null pointer. *)
Record shared_ptr (q : cv) (T : ClassDecl) := mk_shared_ptr {
  get : option nat;
  control : option nat
}.
Arguments mk_shared_ptr {q T} get control.
Arguments get {q T} _.
Arguments control {q T} _.

Definition nullptr {q T} : shared_ptr q T := mk_shared_ptr None None.

(** The store: the live header objects by address, and the use count of
    every control block. *)
Record Memory (Obj : Type) := mkMemory {
  objects : gmap nat Obj;
  use_count : gmap nat nat
}.
Arguments mkMemory {Obj} objects use_count.
Arguments objects {Obj} _.
Arguments use_count {Obj} _.

(** Two pointers share ownership when they go through the same control
    block. *)
Definition shares_ownership {q1 q2 T1 T2}
    (a : shared_ptr q1 T1) (b : shared_ptr q2 T2) : Prop :=
  control a = control b.

(** [std::static_pointer_cast<To>(r)]: a new pointer with the same stored
    address (single inheritance: no adjustment) sharing [r]'s control block,
    whose use count goes up by one. *)
Definition static_pointer_cast {Obj q From} (To : ClassDecl)
    (r : shared_ptr q From) (m : Memory Obj) : shared_ptr q To * Memory Obj :=
  (mk_shared_ptr (get r) (control r),
   match control r with
   | Some cb => mkMemory (objects m) (alter S cb (use_count m))
   | None => m
   end).

(** ** template header_cast (lines 199-215) *)

(** What instantiating a function template at a type gives. *)
Inductive instantiation (A : Type) :=
| Instantiated (f : A)
| NotViable      (* [enable_if] removed the overload *)
| IllFormed.     (* the body names a member the type lacks *)
Arguments Instantiated {A} f.
Arguments NotViable {A}.
Arguments IllFormed {A}.

Section header_cast.
Context {Obj : Type} `{Header Obj}.

(** A call returns [None] where the C++ has no defined behaviour:
    [from->hash()] through a null or dangling pointer. *)
Definition header_cast (To : ClassDecl)
  : instantiation (shared_ptr non_const Header_decl → Memory Obj →
                   option (shared_ptr non_const To * Memory Obj)) :=
  if IsHeader.value To then
    match static_Hash To with
    | Some To_Hash =>
        Instantiated (fun from m =>
          p ← get from;
          o ← objects m !! p;
          Some (if bool_decide (To_Hash = hash o)
                then static_pointer_cast To from m
                else (nullptr, m)))
    | None => IllFormed
    end
  else NotViable.

(** The overload on [std::shared_ptr<const Header>]. *)
Definition header_cast_const (To : ClassDecl)
  : instantiation (shared_ptr const Header_decl → Memory Obj →
                   option (shared_ptr const To * Memory Obj)) :=
  if IsHeader.value To then
    match static_Hash To with
    | Some To_Hash =>
        Instantiated (fun from m =>
          p ← get from;
          o ← objects m !! p;
          Some (if bool_decide (To_Hash = hash o)
                then static_pointer_cast To from m
                else (nullptr, m)))
    | None => IllFormed
    end
  else NotViable.

End header_cast.

(** ** The concrete header classes (lines 217-351) *)

(** Each class module gives the private members as a record, the static
    members [Name] and [Hash] and the overriders [name()] and [hash()] that
    [NAME] generates, the constructors and the inline accessors.  [Hash] is
    a [constexpr]: it is evaluated where it is defined.  All seven names
    are ASCII, so the value is the same whichever way plain [char] is signed
    ([NAME_Hash_any_char] below). *)

Module ContentLength.
Definition Name : string := "Content-Length".
Definition Hash : Z := Eval vm_compute in NAME_Hash true Name.
Definition decl : ClassDecl :=
  mkClassDecl true (Some (NAME_Name Name)) (Some Hash).

Record t := mk { value_ : Z }.

Global Instance header : Header t := {| name _ := Name; hash _ := Hash |}.

Definition new0 : t := mk 0.
Definition new (val : Z) : t := mk val.

Definition value : method t Z := fun this => (value_ this, this).

(** Modelled from the spec: [parse] is declared at line 229 and defined
    elsewhere.  It scans the leading run of decimal digits into an
    unsigned 64-bit accumulator; an empty text, or one that starts with a
    non-digit, is malformed and leaves the object as it was. *)
Fixpoint scan_digits (s : std_string) (acc : Z) : Z :=
  match s with
  | c :: s' =>
      if is_digit c then scan_digits s' (u64 (acc * 10 + digit_val c))
      else acc
  | [] => acc
  end.

Definition parse (data : std_string) : method t parse_status := fun this =>
  match data with
  | c :: _ =>
      if is_digit c then (Parsed, mk (scan_digits data 0))
      else (MalformedHeaderValue Name data, this)
  | [] => (MalformedHeaderValue Name data, this)
  end.

(** Modelled from the spec: the inherited [parseRaw] forwards to [parse]. *)
Definition parseRaw (str : std_string) : method t parse_status := parse str.

(** Modelled from the spec: [write] is declared at line 230 and defined
    elsewhere.  ASCII decimal digits, no sign, no leading zeros. *)
Definition write (this : t) (os : ostream) : ostream :=
  os ++ to_decimal (value_ this).
End ContentLength.

Module Host.
Definition Name : string := "Host".
Definition Hash : Z := Eval vm_compute in NAME_Hash true Name.
Definition decl : ClassDecl :=
  mkClassDecl true (Some (NAME_Name Name)) (Some Hash).

Record t := mk { host_ : std_string; port_ : Z }.

Global Instance header : Header t := {| name _ := Name; hash _ := Hash |}.

Definition new0 : t := mk [] (-1).
Definition new1 (host : std_string) : t := mk host (-1).
Definition new (host : std_string) (port : Z) : t := mk host port.

Definition host : method t std_string := fun this => (host_ this, this).
Definition port : method t Z := fun this => (port_ this, this).

(** Modelled from the spec: [parse] is declared at line 252 and defined
    elsewhere.  Split on the last [:] if present; the left part is the
    host; the right part, when it is a run of digits that fits the signed
    16-bit port, is the port, and a malformed port otherwise; without [:]
    the port stays at the sentinel -1. *)
Definition parse (data : std_string) : method t parse_status := fun this =>
  match split_last ":" data with
  | None => (Parsed, mk data (-1))
  | Some (h, p) =>
      if negb (bool_decide (p = [])) && forallb is_digit p
         && (decimal_value p 0 <=? 32767)
      then (Parsed, mk h (decimal_value p 0))
      else (MalformedHeaderValue Name data, this)
  end.

(** Modelled from the spec: the inherited [parseRaw] forwards to [parse]. *)
Definition parseRaw (str : std_string) : method t parse_status := parse str.

(** Modelled from the spec: [write] is declared at line 253 and defined
    elsewhere.  The host, then [:] and the port when the port is not -1. *)
Definition write (this : t) (os : ostream) : ostream :=
  if port_ this =? -1 then os ++ host_ this
  else os ++ host_ this ++ ":"%char :: to_decimal (port_ this).
End Host.

Module UserAgent.
Definition Name : string := "User-Agent".
Definition Hash : Z := Eval vm_compute in NAME_Hash true Name.
Definition decl : ClassDecl :=
  mkClassDecl true (Some (NAME_Name Name)) (Some Hash).

Record t := mk { ua_ : std_string }.

Global Instance header : Header t := {| name _ := Name; hash _ := Hash |}.

Definition new0 : t := mk [].
Definition new (ua : std_string) : t := mk ua.

Definition ua : method t std_string := fun this => (ua_ this, this).

(** Modelled from the spec: [parse] is declared at line 272 and defined
    elsewhere.  The text is stored as it is, trimmed of leading and
    trailing whitespace. *)
Definition parse (data : std_string) : method t parse_status := fun this =>
  (Parsed, mk (trim data)).
End UserAgent.

Module Accept.
Definition Name : string := "Accept".
Definition Hash : Z := Eval vm_compute in NAME_Hash true Name.
Definition decl : ClassDecl :=
  mkClassDecl true (Some (NAME_Name Name)) (Some Hash).

Record t := mk { data : std_string }.

Global Instance header : Header t := {| name _ := Name; hash _ := Hash |}.

Definition new0 : t := mk [].

(** Modelled from the spec: [parseRaw] is declared at line 287 and
    defined elsewhere.  The raw text is kept as an opaque string. *)
Definition parseRaw (str : std_string) : method t parse_status := fun this =>
  (Parsed, mk str).
End Accept.

Module ContentEncoding.
Definition Name : string := "Content-Encoding".
Definition Hash : Z := Eval vm_compute in NAME_Hash true Name.
Definition decl : ClassDecl :=
  mkClassDecl true (Some (NAME_Name Name)) (Some Hash).

Record t := mk { encoding_ : Encoding }.

Global Instance header : Header t := {| name _ := Name; hash _ := Hash |}.

Definition new0 : t := mk Identity.
Definition new (encoding : Encoding) : t := mk encoding.

Definition encoding : method t Encoding := fun this => (encoding_ this, this).

(** Modelled from the spec: [parseRaw] is declared at line 306 and
    defined elsewhere.  The trimmed token is matched against the closed
    set; it never fails. *)
Definition parseRaw (str : std_string) : method t parse_status := fun this =>
  (Parsed, mk (encoding_of_token (trim str))).

(** Modelled from the spec: the inherited [parse] forwards to [parseRaw]. *)
Definition parse (data : std_string) : method t parse_status := parseRaw data.

(** Modelled from the spec: [write] is declared at line 307 and defined
    elsewhere.  The literal of the stored member. *)
Definition write (this : t) (os : ostream) : ostream :=
  os ++ lit (encodingString (encoding_ this)).
End ContentEncoding.

Module Server.
Definition Name : string := "Server".
Definition Hash : Z := Eval vm_compute in NAME_Hash true Name.
Definition decl : ClassDecl :=
  mkClassDecl true (Some (NAME_Name Name)) (Some Hash).

Record t := mk { tokens_ : list std_string }.

Global Instance header : Header t := {| name _ := Name; hash _ := Hash |}.

Definition new0 : t := mk [].

(** Modelled from the spec: the constructor from a token sequence is
    declared at line 321 and defined elsewhere.  It stores the sequence. *)
Definition new (tokens : list std_string) : t := mk tokens.

(** Modelled from the spec: the constructors from a single token are
    declared at lines 322-323 and defined elsewhere.  They store the one
    token. *)
Definition new1 (token : std_string) : t := mk [token].

Definition tokens : method t (list std_string) := fun this =>
  (tokens_ this, this).

(** Modelled from the spec: [parse] is declared at line 325 and defined
    elsewhere.  The text is split on whitespace into the ordered sequence
    of tokens. *)
Definition parse (data : std_string) : method t parse_status := fun this =>
  (Parsed, mk (split_whitespace data)).

(** Modelled from the spec: the inherited [parseRaw] forwards to [parse]. *)
Definition parseRaw (str : std_string) : method t parse_status := parse str.

(** Modelled from the spec: [write] is declared at line 326 and defined
    elsewhere.  The tokens in order, joined by a single space. *)
Definition write (this : t) (os : ostream) : ostream :=
  os ++ join_space (tokens_ this).
End Server.

Module ContentType.
Definition Name : string := "Content-Type".
Definition Hash : Z := Eval vm_compute in NAME_Hash true Name.
Definition decl : ClassDecl :=
  mkClassDecl true (Some (NAME_Name Name)) (Some Hash).

Record t := mk { mime_ : Mime.MediaType }.

Global Instance header : Header t := {| name _ := Name; hash _ := Hash |}.

Definition new0 : t := mk Mime.MediaType0.
Definition new (mime : Mime.MediaType) : t := mk mime.

Definition mime : method t Mime.MediaType := fun this => (mime_ this, this).

(** Modelled from the spec: [parseRaw] is declared at line 343 and
    defined elsewhere.  It delegates to the media type's text parsing. *)
Definition parseRaw (str : std_string) : method t parse_status := fun this =>
  (Parsed, mk (Mime.fromRaw str)).

(** Modelled from the spec: the inherited [parse] forwards to [parseRaw]. *)
Definition parse (data : std_string) : method t parse_status := parseRaw data.

(** Modelled from the spec: [write] is declared at line 344 and defined
    elsewhere.  The media type's [toString] form. *)
Definition write (this : t) (os : ostream) : ostream :=
  os ++ Mime.toString_total (mime_ this).
End ContentType.

(** ** Header objects behind a generic handle *)

(** An object reachable through a [Header] pointer: one of the seven classes
    of this header, or an object of some other class derived from [Header],
    of which only what its [name()] and [hash()] overriders return matters
    here. *)
Inductive HeaderObject :=
| ContentLength_obj (o : ContentLength.t)
| Host_obj (o : Host.t)
| UserAgent_obj (o : UserAgent.t)
| Accept_obj (o : Accept.t)
| ContentEncoding_obj (o : ContentEncoding.t)
| Server_obj (o : Server.t)
| ContentType_obj (o : ContentType.t)
| Derived_obj (its_name : string) (its_hash : Z).

(** Virtual dispatch on the dynamic type. *)
Global Instance HeaderObject_header : Header HeaderObject := {|
  name o :=
    match o with
    | ContentLength_obj x => name x
    | Host_obj x => name x
    | UserAgent_obj x => name x
    | Accept_obj x => name x
    | ContentEncoding_obj x => name x
    | Server_obj x => name x
    | ContentType_obj x => name x
    | Derived_obj n _ => n
    end;
  hash o :=
    match o with
    | ContentLength_obj x => hash x
    | Host_obj x => hash x
    | UserAgent_obj x => hash x
    | Accept_obj x => hash x
    | ContentEncoding_obj x => hash x
    | Server_obj x => hash x
    | ContentType_obj x => hash x
    | Derived_obj _ h => h
    end
|}.

(** The seven class types, and the class an object of one of them has. *)
Definition concrete_headers : list ClassDecl :=
  [ ContentLength.decl; Host.decl; UserAgent.decl; Accept.decl;
    ContentEncoding.decl; Server.decl; ContentType.decl ].

Definition dynamic_type (o : HeaderObject) : option ClassDecl :=
  match o with
  | ContentLength_obj _ => Some ContentLength.decl
  | Host_obj _ => Some Host.decl
  | UserAgent_obj _ => Some UserAgent.decl
  | Accept_obj _ => Some Accept.decl
  | ContentEncoding_obj _ => Some ContentEncoding.decl
  | Server_obj _ => Some Server.decl
  | ContentType_obj _ => Some ContentType.decl
  | Derived_obj _ _ => None
  end.

(** ** The public interface of the seven classes *)

(** The non-static public member functions of the seven classes, other than
    constructors and the destructor, with the [const] qualifier each has.
    [parse] and [parseRaw] are the virtuals of [Header] (lines 175-176),
    inherited where a class does not override them.  No class declares a
    copy or move operation or a destructor, so each has the implicitly
    declared copy and move assignment operators, public and not [const]. *)
Inductive member_function :=
| m_name | m_hash | m_parse | m_parseRaw | m_write
| m_value | m_host | m_port | m_ua | m_encoding | m_tokens | m_mime
| m_copy_assign | m_move_assign.

Global Instance member_function_eq_dec : EqDecision member_function.
Proof. solve_decision. Defined.

Definition from_NAME_and_Header : list (member_function * bool) :=
  [ (m_hash, true); (m_name, true);
    (m_parse, false); (m_parseRaw, false); (m_write, true) ].

Definition implicitly_declared : list (member_function * bool) :=
  [ (m_copy_assign, false); (m_move_assign, false) ].

(** The interface of the class of [o]; of a class outside this header
    nothing is known. *)
Definition public_members (o : HeaderObject) : list (member_function * bool) :=
  match o with
  | ContentLength_obj _ =>
      from_NAME_and_Header ++ [ (m_value, true) ] ++ implicitly_declared
  | Host_obj _ =>
      from_NAME_and_Header ++ [ (m_host, true); (m_port, true) ]
      ++ implicitly_declared
  | UserAgent_obj _ =>
      from_NAME_and_Header ++ [ (m_ua, true) ] ++ implicitly_declared
  | Accept_obj _ => from_NAME_and_Header ++ implicitly_declared
  | ContentEncoding_obj _ =>
      from_NAME_and_Header ++ [ (m_encoding, true) ] ++ implicitly_declared
  | Server_obj _ =>
      from_NAME_and_Header ++ [ (m_tokens, true) ] ++ implicitly_declared
  | ContentType_obj _ =>
      from_NAME_and_Header ++ [ (m_mime, true) ] ++ implicitly_declared
  | Derived_obj _ _ => []
  end.

(** The accessors, and what a call returns. *)
Inductive accessor :=
| a_value | a_host | a_port | a_ua | a_encoding | a_tokens | a_mime
| a_name | a_hash.

Inductive value :=
| v_uint64 (n : Z)
| v_int16 (n : Z)
| v_string (s : std_string)
| v_encoding (e : Encoding)
| v_tokens (l : list std_string)
| v_mime (m : Mime.MediaType)
| v_c_str (s : string).

Definition member_of_accessor (a : accessor) : member_function :=
  match a with
  | a_value => m_value | a_host => m_host | a_port => m_port | a_ua => m_ua
  | a_encoding => m_encoding | a_tokens => m_tokens | a_mime => m_mime
  | a_name => m_name | a_hash => m_hash
  end.

(** Running a member function of class [T] on the object inside a
    [HeaderObject]. *)
Definition run {T A} (inj : T → HeaderObject) (ret : A → value)
    (f : method T A) (this : T) : option (value * HeaderObject) :=
  let '(a, this') := f this in Some (ret a, inj this').

(** Calling accessor [a] on object [o]: its result and the object
    afterwards; nothing when [o]'s class has no such member. *)
Definition call_accessor (a : accessor) (o : HeaderObject)
  : option (value * HeaderObject) :=
  match a, o with
  | a_value, ContentLength_obj x =>
      run ContentLength_obj v_uint64 ContentLength.value x
  | a_host, Host_obj x => run Host_obj v_string Host.host x
  | a_port, Host_obj x => run Host_obj v_int16 Host.port x
  | a_ua, UserAgent_obj x => run UserAgent_obj v_string UserAgent.ua x
  | a_encoding, ContentEncoding_obj x =>
      run ContentEncoding_obj v_encoding ContentEncoding.encoding x
  | a_tokens, Server_obj x => run Server_obj v_tokens Server.tokens x
  | a_mime, ContentType_obj x => run ContentType_obj v_mime ContentType.mime x
  | a_name, _ => Some (v_c_str (name o), o)
  | a_hash, _ => Some (v_uint64 (hash o), o)
  | _, _ => None
  end.

(** A consumer calls an accessor through its handle: the object is read
    from the store and what the call leaves of it is written back. *)
Definition read {q T} (h : shared_ptr q T) (a : accessor)
    (m : Memory HeaderObject) : option (value * Memory HeaderObject) :=
  p ← get h;
  o ← objects m !! p;
  r ← call_accessor a o;
  Some (r.1, mkMemory (<[p := r.2]> (objects m)) (use_count m)).

(** Any number of consumers reading in turn. *)
Fixpoint read_all {q T} (calls : list (shared_ptr q T * accessor))
    (m : Memory HeaderObject) : option (list value * Memory HeaderObject) :=
  match calls with
  | [] => Some ([], m)
  | (h, a) :: calls' =>
      r ← read h a m;
      rs ← read_all calls' r.2;
      Some (r.1 :: rs.1, rs.2)
  end.

(** The implicitly declared assignment operators copy (or move) every
    member of the argument into the object, which afterwards holds the
    argument's value. *)
Definition operator_assign {T} (other : T) : method T unit := fun this =>
  (tt, other).

(** Assigning to the object behind a pointer to one of the seven classes:
    the argument is of the same class. *)
Definition assign (other this : HeaderObject) : option HeaderObject :=
  match other, this with
  | ContentLength_obj x, ContentLength_obj y =>
      Some (ContentLength_obj (operator_assign x y).2)
  | Host_obj x, Host_obj y => Some (Host_obj (operator_assign x y).2)
  | UserAgent_obj x, UserAgent_obj y =>
      Some (UserAgent_obj (operator_assign x y).2)
  | Accept_obj x, Accept_obj y => Some (Accept_obj (operator_assign x y).2)
  | ContentEncoding_obj x, ContentEncoding_obj y =>
      Some (ContentEncoding_obj (operator_assign x y).2)
  | Server_obj x, Server_obj y => Some (Server_obj (operator_assign x y).2)
  | ContentType_obj x, ContentType_obj y =>
      Some (ContentType_obj (operator_assign x y).2)
  | _, _ => None
  end.

(** [*h = other] through a handle to a non-const object, such as
    [header_cast] returns. *)
Definition assign_through {T} (h : shared_ptr non_const T)
    (other : HeaderObject) (m : Memory HeaderObject)
  : option (Memory HeaderObject) :=
  p ← get h;
  o ← objects m !! p;
  o' ← assign other o;
  Some (mkMemory (<[p := o']> (objects m)) (use_count m)).

(** * Predicates used in the statements *)

(** A byte that reads the same as a [char] whichever way [char] is signed on
    the platform at hand: any non-NUL byte when [char] is unsigned, the
    bytes below 128 when it is signed. *)
Definition plain_byte (char_is_signed : bool) (b : Z) : Prop :=
  0 < b < 256 ∧ (char_is_signed = true → b < 128).

(** What a call of an instantiated [header_cast] does, for a handle [h]
    that points at the live object [o], against the tag [tag]: it returns;
    the objects are untouched; on equal tags the result has [h]'s address
    and control block, whose use count went up by one; on different tags
    the result is null and nothing changed. *)
Definition cast_contract {Obj} `{Header Obj} {q To} (tag : Z)
    (cast : shared_ptr q Header_decl → Memory Obj →
            option (shared_ptr q To * Memory Obj)) : Prop :=
  ∀ h m p o,
    get h = Some p → objects m !! p = Some o →
    ∃ r m',
      cast h m = Some (r, m') ∧
      objects m' = objects m ∧
      (is_Some (get r) ↔ hash o = tag) ∧
      (hash o = tag →
         get r = get h ∧ shares_ownership r h ∧
         use_count m' = match control h with
                        | Some cb => alter S cb (use_count m)
                        | None => use_count m
                        end) ∧
      (hash o ≠ tag → r = nullptr ∧ m' = m).

(** The identity tags of the seven classes. *)
Definition concrete_tags : list Z :=
  [ ContentLength.Hash; Host.Hash; UserAgent.Hash; Accept.Hash;
    ContentEncoding.Hash; Server.Hash; ContentType.Hash ].

(** Text that does not go on with a digit. *)
Definition no_digit_ahead (rest : std_string) : Prop :=
  match rest with
  | c :: _ => is_digit c = false
  | [] => True
  end.

(** A character sequence free of whitespace and not empty: what
    [split_whitespace] can give back as one token. *)
Definition is_token (t : std_string) : Prop :=
  t ≠ [] ∧ forallb (λ c, negb (isspace c)) t = true.

(** What the capability check is said to ask of a class besides deriving
    from [Header]: that it declares a static member named [Name]. *)
Definition declares_static_Name (H : ClassDecl) : Prop :=
  ∃ m, member_Name H = Some m ∧
       (member_entity m = static_data_member ∨
        member_entity m = static_member_function).




(** A small store for the examples: one [Host] object at address 1, owned
    through control block 7 by a single handle. *)
Definition example_memory : Memory HeaderObject :=
  mkMemory {[ 1%nat := Host_obj (Host.new (lit "example.com") 8080) ]}
           {[ 7%nat := 1%nat ]}.

Definition example_handle : shared_ptr non_const Header_decl :=
  mk_shared_ptr (Some 1%nat) (Some 7%nat).

(** The handle [header_cast<Host>] returns on [example_handle]. *)
Definition example_Host_handle : shared_ptr non_const Host.decl :=
  mk_shared_ptr (Some 1%nat) (Some 7%nat).

(** * Further statements *)

(** What [(value ^ c)] XORs into the accumulator for the byte [b] where
    plain [char] is signed: the byte itself below 128; from 128 on the
    [char] is negative and its conversion to [unsigned long long] sets the
    upper 56 bits. *)
Definition sign_extended (b : Z) : Z :=
  if b <? 128 then b else b + (2 ^ 64 - 256).

(** The inverse of [detail::prime] modulo 2^64 (the prime is odd). *)
Definition prime_inverse : Z := 14886173955864302971.

(** What of a returned pointer and store does not depend on the constness
    of the pointer type. *)
Definition cast_outcome {Obj q T} (r : option (shared_ptr q T * Memory Obj))
  : option (option nat * option nat * Memory Obj) :=
  (λ rm, (get rm.1, control rm.1, rm.2)) <$> r.

(** A second store for the examples: at address 1 an object of a class
    outside this header whose [hash()] returns the tag of [Host]. *)
Definition impostor_memory : Memory HeaderObject :=
  mkMemory {[ 1%nat := Derived_obj "X-Impostor" Host.Hash ]}
           {[ 7%nat := 1%nat ]}.

(** * Properties *)

(** A closed decidable statement, settled by evaluation. *)
Ltac by_evaluation := apply (bool_decide_unpack _); vm_compute; exact I.

(** ** The identity-tag hash *)

Lemma u64_small z : 0 ≤ z < 2 ^ 64 → u64 z = z.
Proof. intros. unfold u64. apply Z.mod_small. lia. Qed.

Lemma char_of_plain_byte sg b :
  plain_byte sg b →
  char_of_byte sg b = b ∧ (b =? 0) = false ∧ u64 b = b.
Proof.
  intros [Hb Hs]. unfold char_of_byte. repeat split.
  - destruct sg; simpl; [|done].
    specialize (Hs eq_refl). destruct (128 <=? b) eqn:E; [lia|done].
  - apply Z.eqb_neq. lia.
  - apply u64_small. lia.
Qed.

Lemma hash_one_NUL remain value : detail.hash_one 0 remain value = Some value.
Proof. by destruct remain. Qed.

Lemma hash_one_step c r0 remain value :
  (c =? 0) = false →
  detail.hash_one c (r0 :: remain) value =
  detail.hash_one r0 remain (u64 (Z.lxor value (u64 c) * detail.prime)).
Proof. intros Hc. simpl. by rewrite Hc. Qed.

Lemma hash_one_fnv1a sg bs : ∀ b value beyond,
  plain_byte sg b → Forall (plain_byte sg) bs →
  detail.hash_one (char_of_byte sg b)
                  (map (char_of_byte sg) bs ++ 0 :: beyond) value
  = Some (fold_left detail.fnv1a_step (b :: bs) value).
Proof.
  induction bs as [|b' bs IH]; intros b value beyond Hb Hbs.
  - destruct (char_of_plain_byte sg b Hb) as (-> & Hnz & Hu).
    simpl map. simpl app. rewrite hash_one_step by done.
    rewrite hash_one_NUL, Hu. done.
  - destruct (char_of_plain_byte sg b Hb) as (Hc & Hnz & Hu).
    apply Forall_cons in Hbs as [Hb' Hbs].
    simpl map. simpl app. rewrite Hc at 1. rewrite hash_one_step by done.
    rewrite IH by done. rewrite Hu. done.
Qed.

(** On every platform [detail::hash] is the FNV-1a hash of the bytes before
    the terminator, provided they read the same as [char]s: always when
    plain [char] is unsigned, and for bytes below 128 when it is signed. *)
Lemma hash_fnv1a_plain sg bs beyond :
  Forall (plain_byte sg) bs →
  detail.hash (c_str sg bs beyond) = Some (detail.fnv1a bs).
Proof.
  intros Hbs. unfold c_str, detail.hash, detail.fnv1a.
  destruct bs as [|b bs]; simpl map; simpl app.
  - apply hash_one_NUL.
  - apply Forall_cons in Hbs as [Hb Hbs]. by apply hash_one_fnv1a.
Qed.

Lemma hash_one_terminated remain : ∀ c value beyond,
  is_Some (detail.hash_one c (remain ++ 0 :: beyond) value).
Proof.
  induction remain as [|r remain IH]; intros c value beyond; simpl.
  - destruct (c =? 0); [done|]. rewrite hash_one_NUL. done.
  - destruct (c =? 0); [done|]. apply IH.
Qed.

(** The hash of a string literal is always defined. *)
Lemma NAME_Hash_defined sg header_name :
  detail.hash (string_literal sg header_name) = Some (NAME_Hash sg header_name).
Proof.
  unfold NAME_Hash, string_literal, c_str.
  destruct (map _ _) as [|c cs] eqn:E; simpl app.
  - simpl. done.
  - unfold detail.hash.
    destruct (hash_one_terminated cs c detail.basis []) as [v Hv].
    by rewrite Hv.
Qed.

(** C3: on a platform where plain [char] is signed, [detail::hash] of the
    one-byte string 0x80 is not the 64-bit FNV-1a hash of that string: the
    [char] is sign-extended before the XOR, so the upper 56 bits of the
    accumulator are flipped as well. *)
Theorem hash_signed_char_high_byte :
  detail.hash (c_str true [128] []) = Some 5808531584386460767 ∧
  detail.fnv1a [128] = 12638293853183578463 ∧
  detail.hash (c_str true [128] []) ≠ Some (detail.fnv1a [128]).
Proof. repeat split; [vm_compute; reflexivity .. | vm_compute; congruence]. Qed.

(** The seven header names are ASCII: their tags do not depend on the
    signedness of plain [char], and each is the FNV-1a hash of the name. *)
Lemma NAME_Hash_any_char sg :
  Forall (λ n, NAME_Hash sg n = NAME_Hash true n ∧
               NAME_Hash sg n = detail.fnv1a (map byte_val (lit n)))
    [ ContentLength.Name; Host.Name; UserAgent.Name; Accept.Name;
      ContentEncoding.Name; Server.Name; ContentType.Name ].
Proof. destruct sg; repeat constructor; vm_compute; reflexivity. Qed.

(** ** The capability check and the safe cast *)

Section cast.
Context {Obj : Type} `{Header Obj}.

Lemma cast_body_contract {q} (To : ClassDecl) (tag : Z) :
  cast_contract (q:=q) (To:=To) tag (fun from m =>
    p ← get from;
    o ← objects m !! p;
    Some (if bool_decide (tag = hash o)
          then static_pointer_cast To from m
          else (nullptr, m))).
Proof.
  intros h m p o Hp Ho. rewrite Hp. simpl. rewrite Ho. simpl.
  case_bool_decide as Htag.
  - eexists _, _. split; [reflexivity|].
    unfold static_pointer_cast; simpl. split_and!.
    + by destruct (control h).
    + rewrite Hp. split; [done | by eauto].
    + intros _. split_and!; [done | done | by destruct (control h)].
    + intros Hne. by destruct Hne.
  - eexists _, _. split; [reflexivity|]. simpl. split_and!.
    + done.
    + split; [by intros [? ?] | by intros <-].
    + intros <-. done.
    + done.
Qed.

Lemma header_cast_instantiated (To : ClassDecl) (tag : Z) :
  IsHeader.value To = true → static_Hash To = Some tag →
  ∃ cast, header_cast To = Instantiated cast ∧ cast_contract tag cast.
Proof.
  intros HIs HHash. unfold header_cast. rewrite HIs, HHash.
  eexists. split; [reflexivity|]. apply cast_body_contract.
Qed.

Lemma header_cast_const_instantiated (To : ClassDecl) (tag : Z) :
  IsHeader.value To = true → static_Hash To = Some tag →
  ∃ cast, header_cast_const To = Instantiated cast ∧ cast_contract tag cast.
Proof.
  intros HIs HHash. unfold header_cast_const. rewrite HIs, HHash.
  eexists. split; [reflexivity|]. apply cast_body_contract.
Qed.

(** C1: for a type [To] that passes [IsHeader] (and has the tag [To::Hash]
    the body names) both overloads of [header_cast] instantiate, and a
    call on a handle [h] to a live header object always returns: a pointer
    with [h]'s address and control block exactly when [h->hash()] equals
    [To::Hash], and the null pointer otherwise.  The overload on
    [shared_ptr<const Header>] returns a [shared_ptr<const To>]. *)
Theorem header_cast_iff_tag (To : ClassDecl) (tag : Z) :
  IsHeader.value To = true → static_Hash To = Some tag →
  (∃ cast : shared_ptr non_const Header_decl → Memory Obj →
            option (shared_ptr non_const To * Memory Obj),
      header_cast To = Instantiated cast ∧ cast_contract tag cast) ∧
  (∃ cast : shared_ptr const Header_decl → Memory Obj →
            option (shared_ptr const To * Memory Obj),
      header_cast_const To = Instantiated cast ∧ cast_contract tag cast).
Proof.
  intros HIs HHash. split.
  - by apply header_cast_instantiated.
  - by apply header_cast_const_instantiated.
Qed.

End cast.

Lemma IsHeader_value_spec (H : ClassDecl) :
  IsHeader.value H = true ↔
  is_base_of_Header H = true ∧
  ∃ m, member_Name H = Some m ∧ IsHeader.pointer_to_decltype m = true.
Proof.
  unfold IsHeader.value, IsHeader.test.
  destruct (is_base_of_Header H); simpl.
  - destruct (member_Name H) as [m|].
    + destruct (IsHeader.pointer_to_decltype m) eqn:Hm; simpl; split; try done.
      * intros _. split; [done|]. by exists m.
      * intros [_ (m' & [= <-] & Hm')]. congruence.
    + split; [done|]. by intros [_ (m' & ? & _)].
  - split; [done|]. by intros [? _].
Qed.

Lemma pointer_to_decltype_spec (m : member) :
  IsHeader.pointer_to_decltype m = true ↔
  member_public m = true ∧
  ((member_entity m = static_data_member ∨
    member_entity m = nonstatic_data_member) ∧ member_reference m = false
   ∨ member_entity m = enumerator
   ∨ member_entity m = static_member_function).
Proof.
  unfold IsHeader.pointer_to_decltype.
  destruct m as [e p r v]; simpl. destruct p, e, r; simpl; split;
    try done; try (intros _; split; [done|]; by eauto);
    intros [? [[[?|?] ?] | [? | ?]]]; done.
Qed.

(** C10, as stated, fails in both directions: a class derived from
    [Header] whose [Name] is a public non-static data member passes the
    check without declaring a static member [Name], and a class derived
    from [Header] whose static member [Name] is private fails it. *)
Lemma IsHeader_is_not_static_Name :
  IsHeader.value
    (mkClassDecl true (Some (mkMember nonstatic_data_member true false None))
                 None) = true ∧
  ¬ declares_static_Name
      (mkClassDecl true (Some (mkMember nonstatic_data_member true false None))
                   None) ∧
  IsHeader.value
    (mkClassDecl true
       (Some (mkMember static_data_member false false (Some "X-Private")))
       None) = false ∧
  declares_static_Name
    (mkClassDecl true
       (Some (mkMember static_data_member false false (Some "X-Private")))
       None) ∧
  ¬ (∀ H, IsHeader.value H = true ↔
          is_base_of_Header H = true ∧ declares_static_Name H).
Proof.
  assert (¬ declares_static_Name
            (mkClassDecl true
               (Some (mkMember nonstatic_data_member true false None)) None))
    as Hnot.
  { intros (m & [= <-] & [? | ?]); done. }
  split_and!; [reflexivity | done | reflexivity | |].
  - eexists. split; [reflexivity|]. by left.
  - intros Hiff. apply Hnot. by apply Hiff.
Qed.

(** C10, amended: [IsHeader<H>::value] holds exactly when [Header] is a
    base of [H] and a pointer to [decltype(H::Name)] is well-formed where
    the trait names it: [Name] is a public member of [H] that is a data
    member, static or not, of a non-reference type, an enumerator or a
    static member function.  [Hash] plays no part, so a class with such a
    [Name] and without [Hash] passes the check although [header_cast]
    cannot be instantiated at it. *)
Theorem IsHeader_value_iff :
  (∀ H : ClassDecl,
     IsHeader.value H = true ↔
     is_base_of_Header H = true ∧
     ∃ m, member_Name H = Some m ∧
          member_public m = true ∧
          ((member_entity m = static_data_member ∨
            member_entity m = nonstatic_data_member) ∧
           member_reference m = false
           ∨ member_entity m = enumerator
           ∨ member_entity m = static_member_function)) ∧
  (∀ (H : ClassDecl) (tag : option Z),
     IsHeader.value (mkClassDecl (is_base_of_Header H) (member_Name H) tag)
     = IsHeader.value H) ∧
  (∃ H : ClassDecl,
     IsHeader.value H = true ∧ static_Hash H = None ∧
     header_cast (Obj:=HeaderObject) H = IllFormed ∧
     header_cast_const (Obj:=HeaderObject) H = IllFormed).
Proof.
  split; [|split].
  - intros H. rewrite IsHeader_value_spec.
    split; intros [Hbase (m & Hm & Hptr)]; (split; [done|]); exists m;
      (split; [done|]); by apply pointer_to_decltype_spec.
  - intros [b n h] tag. reflexivity.
  - exists (mkClassDecl true (Some (NAME_Name "X-Custom")) None).
    repeat split; reflexivity.
Qed.

Lemma concrete_tags_NoDup : NoDup concrete_tags.
Proof. by_evaluation. Qed.

Lemma concrete_header_cases (P : ClassDecl → Prop) :
  P ContentLength.decl → P Host.decl → P UserAgent.decl → P Accept.decl →
  P ContentEncoding.decl → P Server.decl → P ContentType.decl →
  ∀ To, To ∈ concrete_headers → P To.
Proof.
  intros ??????? To HTo. unfold concrete_headers in HTo.
  repeat (apply elem_of_cons in HTo as [-> | HTo]; [assumption|]).
  by apply elem_of_nil in HTo.
Qed.

(** An object of one of the seven classes carries the tag of another of
    them only when it is of that class. *)
Lemma concrete_tag_identifies (To D : ClassDecl) (o : HeaderObject) tag :
  To ∈ concrete_headers → static_Hash To = Some tag →
  dynamic_type o = Some D → hash o = tag → D = To.
Proof.
  intros HTo. revert To HTo tag.
  apply (concrete_header_cases (λ To, ∀ tag, static_Hash To = Some tag →
           dynamic_type o = Some D → hash o = tag → D = To));
    intros tag [= <-] HD Ho; destruct o; simpl in HD; simplify_eq;
    first [ reflexivity | exfalso; vm_compute in Ho; congruence ].
Qed.

(** C2: the tags of the seven classes, each [detail::hash] of the class's
    name, are pairwise distinct; so [header_cast<H>] at one of the seven
    classes returns null on a handle to an object of any of the other six,
    and on a handle whose [hash()] equals [H::Hash] it returns a handle to
    the same object, sharing ownership. *)
Theorem concrete_tags_distinct :
  NoDup concrete_tags ∧
  map static_Hash concrete_headers = map Some concrete_tags ∧
  Forall (λ d, ∃ n, static_Name d = Some n ∧
                    ∀ sg, detail.hash (string_literal sg n) = static_Hash d)
         concrete_headers ∧
  ∀ To, To ∈ concrete_headers →
    ∃ tag cast,
      static_Hash To = Some tag ∧
      header_cast (Obj:=HeaderObject) To = Instantiated cast ∧
      ∀ h m p o,
        get h = Some p → objects m !! p = Some o →
        (∀ D, dynamic_type o = Some D → D ≠ To →
              cast h m = Some (nullptr, m)) ∧
        (hash o = tag →
           ∃ r m', cast h m = Some (r, m') ∧ get r = Some p ∧
                   shares_ownership r h ∧ objects m' !! p = Some o).
Proof.
  split_and!.
  - apply concrete_tags_NoDup.
  - reflexivity.
  - repeat constructor; eexists; (split; [reflexivity|]); intros sg;
      rewrite NAME_Hash_defined; destruct sg; vm_compute; reflexivity.
  - intros To HTo.
    assert (∃ tag, static_Hash To = Some tag ∧ IsHeader.value To = true)
      as (tag & Htag & HIs).
    { revert To HTo. apply concrete_header_cases; eexists; by split. }
    destruct (header_cast_instantiated (Obj:=HeaderObject) To tag HIs Htag)
      as (cast & Hcast & Hcontract).
    exists tag, cast. split_and!; [done..|].
    intros h m p o Hp Ho.
    destruct (Hcontract h m p o Hp Ho) as (r & m' & Hr & Hobj & _ & Heq & Hne).
    split.
    + intros D HD HDTo.
      destruct (Hne ltac:(intros Htag'; apply HDTo;
                          by eapply concrete_tag_identifies)) as [-> ->].
      done.
    + intros Ho'. destruct (Heq Ho') as (Hget & Hown & _).
      exists r, m'. rewrite Hobj, Hget. done.
Qed.

(** ** Media types *)

(** C5: [operator==] on [MediaType] holds exactly when the two values have
    the same [top] and the same [sub]; [suffix] takes no part, so values
    that differ only in it are equal, such as application/json+json and
    application/json. *)
Theorem MediaType_eq_ignores_suffix :
  (∀ a b : Mime.MediaType,
     (a == b) = true ↔ Mime.top a = Mime.top b ∧ Mime.sub a = Mime.sub b) ∧
  (∀ t s x y, (Mime.MediaType3 t s x == Mime.MediaType3 t s y) = true) ∧
  (MIME3 Mime.Type_.Application Mime.Subtype.Json Mime.Suffix.Json
   == MIME Mime.Type_.Application Mime.Subtype.Json) = true.
Proof.
  split_and!.
  - intros a b. unfold Mime.eq_op.
    rewrite andb_true_iff, !bool_decide_eq_true. done.
  - intros t s x y. unfold Mime.eq_op, Mime.MediaType3. simpl.
    by rewrite !bool_decide_eq_true_2.
  - reflexivity.
Qed.

(** ** Accessors *)

Lemma call_accessor_unchanged a o v o' :
  call_accessor a o = Some (v, o') → o' = o.
Proof.
  destruct a, o; simpl; unfold run; simpl; intros; by simplify_eq.
Qed.

Lemma read_unchanged {q T} (h : shared_ptr q T) a m v m' :
  read h a m = Some (v, m') → m' = m.
Proof.
  unfold read. intros Hread.
  destruct (get h) as [p|]; simpl in Hread; [|done].
  destruct (objects m !! p) as [o|] eqn:Ho; simpl in Hread; [|done].
  destruct (call_accessor a o) as [[v' o']|] eqn:Hcall; simpl in Hread; [|done].
  apply call_accessor_unchanged in Hcall as ->.
  simplify_eq. destruct m as [objs cnt]; simpl in *.
  f_equal. by apply insert_id.
Qed.

Lemma read_all_unchanged {q T} (calls : list (shared_ptr q T * accessor)) :
  ∀ m vs m', read_all calls m = Some (vs, m') → m' = m.
Proof.
  induction calls as [|[h a] calls IH]; intros m vs m' Hall; simpl in Hall.
  - by simplify_eq.
  - destruct (read h a m) as [[v m1]|] eqn:Hread; simpl in Hall; [|done].
    apply read_unchanged in Hread as ->.
    destruct (read_all calls m) as [[vs' m2]|] eqn:Hrest; simpl in Hall; [|done].
    apply IH in Hrest as ->. by simplify_eq.
Qed.

(** Readers whose handles point at live objects that have the member they
    call all get an answer. *)
Lemma read_all_returns {q T} (calls : list (shared_ptr q T * accessor)) m :
  Forall (λ c, ∃ p o, get c.1 = Some p ∧ objects m !! p = Some o ∧
                      is_Some (call_accessor c.2 o)) calls →
  is_Some (read_all calls m).
Proof.
  induction 1 as [|[h a] calls (p & o & Hp & Ho & [[v o'] Hcall]) _ IH]; simpl.
  - done.
  - assert (read h a m = Some (v, m)) as ->.
    { pose proof (call_accessor_unchanged _ _ _ _ Hcall) as ->.
      unfold read. simpl in *. rewrite Hp. simpl. rewrite Ho. simpl.
      rewrite Hcall. simpl. destruct m as [objs cnt]; simpl in *.
      do 2 f_equal. f_equal. by apply insert_id. }
    simpl. destruct IH as [[vs m'] ->]. done.
Qed.

(** The members that are not [const] are the two parse entry points and
    the two implicitly declared assignment operators. *)
Lemma non_const_members o f :
  is_Some (dynamic_type o) →
  (f, false) ∈ public_members o ↔
  f ∈ [m_parse; m_parseRaw; m_copy_assign; m_move_assign].
Proof.
  intros Ho.
  rewrite <- (bool_decide_eq_true (_ ∈ public_members o)).
  rewrite <- (bool_decide_eq_true (f ∈ _)).
  destruct o; try (by destruct Ho); destruct f; reflexivity.
Qed.

(** An accessor is defined on an object of the seven classes exactly when
    the class declares it, as a [const] member. *)
Lemma accessor_declared a o :
  is_Some (dynamic_type o) →
  bool_decide (is_Some (call_accessor a o))
  = bool_decide ((member_of_accessor a, true) ∈ public_members o).
Proof.
  intros Ho. destruct o; try (by destruct Ho); destruct a; reflexivity.
Qed.

Lemma assign_overwrites other this o' :
  assign other this = Some o' → o' = other.
Proof. destruct other, this; simpl; intros; by simplify_eq. Qed.

(** C9, as stated, fails: every one of the seven classes has the
    implicitly declared copy and move assignment operators, public and not
    [const], which are not parse entry points and overwrite the stored
    value: after [*h = Host("example.org", 80)] through the handle a cast
    returned, a consumer reads port 80 where it read 8080 before. *)
Lemma copy_assignment_mutates :
  (m_copy_assign, false)
    ∈ public_members (Host_obj (Host.new (lit "example.com") 8080)) ∧
  m_copy_assign ≠ m_parse ∧ m_copy_assign ≠ m_parseRaw ∧
  (∃ m', assign_through example_Host_handle
           (Host_obj (Host.new (lit "example.org") 80)) example_memory
         = Some m' ∧
         read example_handle a_port example_memory
         = Some (v_int16 8080, example_memory) ∧
         read example_handle a_port m' = Some (v_int16 80, m')) ∧
  ¬ (∀ o f, (f, false) ∈ public_members o → f = m_parse ∨ f = m_parseRaw).
Proof.
  split_and!; [by_evaluation | done | done | |].
  - eexists. split_and!; reflexivity.
  - intros Hall.
    destruct (Hall (Host_obj (Host.new (lit "example.com") 8080))
                m_copy_assign ltac:(by_evaluation)); done.
Qed.

(** C9, amended: apart from [parse], [parseRaw] and the implicitly declared
    copy and move assignment operators, every public member function of
    the seven classes is [const]; each accessor ([value], [host], [port],
    [ua], [encoding], [tokens], [mime], [name], [hash]) is defined on the
    objects whose class declares it and returns them unchanged; so any
    number of consumers that call accessors through their handles leave
    the store as it was. *)
Theorem accessors_do_not_mutate :
  (∀ o f, is_Some (dynamic_type o) →
     ((f, false) ∈ public_members o ↔
      f ∈ [m_parse; m_parseRaw; m_copy_assign; m_move_assign])) ∧
  (∀ a o, is_Some (dynamic_type o) →
     (is_Some (call_accessor a o) ↔
      (member_of_accessor a, true) ∈ public_members o)) ∧
  (∀ a o v o', call_accessor a o = Some (v, o') → o' = o) ∧
  (∀ q T (calls : list (shared_ptr q T * accessor)) m,
     Forall (λ c, ∃ p o, get c.1 = Some p ∧ objects m !! p = Some o ∧
                         is_Some (call_accessor c.2 o)) calls →
     ∃ vs, read_all calls m = Some (vs, m)).
Proof.
  split_and!.
  - intros o f Ho. by apply non_const_members.
  - intros a o Ho.
    rewrite <- (bool_decide_eq_true (is_Some _)).
    rewrite <- (bool_decide_eq_true (_ ∈ _)).
    by rewrite accessor_declared.
  - apply call_accessor_unchanged.
  - intros q T calls m Hcalls.
    destruct (read_all_returns calls m Hcalls) as [[vs m'] Hall].
    pose proof (read_all_unchanged _ _ _ _ Hall) as ->. by exists vs.
Qed.

Lemma u64_accumulate acc d : u64 (u64 acc * 10 + d) = u64 (acc * 10 + d).
Proof.
  unfold u64.
  rewrite (Z.add_mod (acc mod 2 ^ 64 * 10)) by lia.
  rewrite Z.mul_mod_idemp_l by lia.
  rewrite <- Z.add_mod by lia. done.
Qed.

(** Scanning a run of digits gives the number they denote, modulo 2^64. *)
Lemma scan_digits_run ds rest :
  forallb is_digit ds = true → no_digit_ahead rest →
  ∀ acc, ContentLength.scan_digits (ds ++ rest) (u64 acc)
         = u64 (decimal_value ds acc).
Proof.
  intros Hds Hrest. induction ds as [|c ds IH]; intros acc; simpl.
  - destruct rest as [|c rest]; simpl; [done|].
    simpl in Hrest. by rewrite Hrest.
  - simpl in Hds. apply andb_true_iff in Hds as [Hc Hds].
    rewrite Hc, u64_accumulate. by apply IH.
Qed.

Lemma ContentLength_parse_run ds rest this :
  ds ≠ [] → forallb is_digit ds = true → no_digit_ahead rest →
  ContentLength.parse (ds ++ rest) this
  = (Parsed, ContentLength.mk (decimal_value ds 0 mod 2 ^ 64)).
Proof.
  intros Hne Hds Hrest. unfold ContentLength.parse.
  destruct ds as [|c ds]; [done|]. simpl app.
  pose proof Hds as Hds'. simpl in Hds'.
  apply andb_true_iff in Hds' as [-> _]. do 2 f_equal.
  change (c :: ds ++ rest) with ((c :: ds) ++ rest).
  rewrite <- (u64_small 0) at 1 by lia.
  by apply scan_digits_run.
Qed.

(** C7: [ContentLength::parse] scans the leading run of decimal digits into
    an unsigned 64-bit accumulator, so 12345 parses to the value 12345; an
    empty text and a text that starts with a non-digit, such as abc, are
    reported as malformed and the object is left as it was. *)
Theorem ContentLength_parse_policy :
  (∀ this,
     (ContentLength.value (ContentLength.parse (lit "12345") this).2).1
     = 12345) ∧
  (∀ this,
     ContentLength.parse (lit "abc") this
     = (MalformedHeaderValue ContentLength.Name (lit "abc"), this)) ∧
  (∀ this,
     ContentLength.parse (lit "") this
     = (MalformedHeaderValue ContentLength.Name (lit ""), this)) ∧
  (∀ c rest this,
     is_digit c = false →
     ContentLength.parse (c :: rest) this
     = (MalformedHeaderValue ContentLength.Name (c :: rest), this)) ∧
  (∀ ds rest this,
     ds ≠ [] → forallb is_digit ds = true → no_digit_ahead rest →
     ContentLength.parse (ds ++ rest) this
     = (Parsed, ContentLength.mk (decimal_value ds 0 mod 2 ^ 64))).
Proof.
  split_and!; try (intros; reflexivity).
  - intros c rest this Hc. unfold ContentLength.parse. by rewrite Hc.
  - apply ContentLength_parse_run.
Qed.

(** ** ContentEncoding *)

Lemma encoding_of_token_Unknown token :
  encoding_of_token token = Unknown ↔
  token ∉ map (λ e, lit (encodingString e)) [Gzip; Compress; Deflate; Identity].
Proof.
  unfold encoding_of_token. simpl map. rewrite !not_elem_of_cons.
  repeat case_bool_decide; split; try done; try (intros (? & ? & ? & ? & _); done).
  intros _. split_and!; try done. apply not_elem_of_nil.
Qed.

Lemma encoding_of_token_known token e :
  e ≠ Unknown →
  encoding_of_token token = e ↔ token = lit (encodingString e).
Proof.
  intros He. unfold encoding_of_token.
  repeat case_bool_decide; subst; destruct e; simpl; split; try done;
    try (intros Heq; by inversion Heq).
Qed.

(** C8: [ContentEncoding::parseRaw] never fails: the trimmed token is
    matched, case-sensitively, against gzip, compress, deflate and
    identity, and any other token gives [Encoding::Unknown]; gzip gives
    [Gzip] and brotli gives [Unknown]. *)
Theorem ContentEncoding_parseRaw_never_fails :
  (∀ str this, (ContentEncoding.parseRaw str this).1 = Parsed) ∧
  (∀ str this e,
     e ≠ Unknown →
     (ContentEncoding.encoding (ContentEncoding.parseRaw str this).2).1 = e ↔
     trim str = lit (encodingString e)) ∧
  (∀ str this,
     (ContentEncoding.encoding (ContentEncoding.parseRaw str this).2).1
     = Unknown ↔
     trim str ∉ map (λ e, lit (encodingString e))
                    [Gzip; Compress; Deflate; Identity]) ∧
  (∀ this, (ContentEncoding.parseRaw (lit "gzip") this).2
           = ContentEncoding.mk Gzip) ∧
  (∀ this, ContentEncoding.parseRaw (lit "brotli") this
           = (Parsed, ContentEncoding.mk Unknown)) ∧
  (∀ this, ContentEncoding.parseRaw (lit "GZIP") this
           = (Parsed, ContentEncoding.mk Unknown)) ∧
  (∀ this, ContentEncoding.parseRaw (lit "  deflate ") this
           = (Parsed, ContentEncoding.mk Deflate)).
Proof.
  split_and!; try (intros; reflexivity).
  - intros str this e He. simpl. by apply encoding_of_token_known.
  - intros str this. simpl. apply encoding_of_token_Unknown.
Qed.

(** ** Decimal text *)

Lemma digit_char_spec d :
  0 ≤ d < 10 →
  is_digit (digit_char d) = true ∧ digit_val (digit_char d) = d ∧
  digit_char d ≠ ":"%char.
Proof.
  intros Hd.
  assert (d = 0 ∨ d = 1 ∨ d = 2 ∨ d = 3 ∨ d = 4 ∨ d = 5 ∨ d = 6 ∨ d = 7
          ∨ d = 8 ∨ d = 9) as Hcases by lia.
  repeat (destruct Hcases as [-> | Hcases]; [by vm_compute|]).
  subst. by vm_compute.
Qed.

Lemma decimal_value_app l1 l2 acc :
  decimal_value (l1 ++ l2) acc = decimal_value l2 (decimal_value l1 acc).
Proof. revert acc. induction l1 as [|c l1 IH]; intros acc; simpl; [done|apply IH]. Qed.

(** [decimal_digits] puts in front of [acc] a non-empty run of digits,
    free of colons, that denotes [n]. *)
Lemma decimal_digits_spec fuel : ∀ n acc,
  0 ≤ n < 10 ^ Z.of_nat fuel → (0 < fuel)%nat →
  ∃ ds, decimal_digits fuel n acc = ds ++ acc ∧ ds ≠ [] ∧
        forallb is_digit ds = true ∧ (":"%char ∉ ds) ∧
        ∀ a, decimal_value ds a = a * 10 ^ Z.of_nat (length ds) + n.
Proof.
  induction fuel as [|fuel IH]; intros n acc Hn Hfuel; [lia|].
  simpl decimal_digits.
  assert (0 ≤ n mod 10 < 10) as Hd by (apply Z.mod_pos_bound; lia).
  destruct (digit_char_spec _ Hd) as (Hdig & Hval & Hcolon).
  destruct (n / 10 =? 0) eqn:Hq.
  - apply Z.eqb_eq in Hq.
    exists [digit_char (n mod 10)]. split_and!; try done.
    + simpl. by rewrite Hdig.
    + apply not_elem_of_cons. split; [congruence | apply not_elem_of_nil].
    + intros a. simpl. rewrite Hval.
      pose proof (Z.div_mod n 10). lia.
  - apply Z.eqb_neq in Hq.
    assert (0 ≤ n / 10 < 10 ^ Z.of_nat fuel) as Hn'.
    { split; [apply Z.div_pos; lia|].
      apply Z.div_lt_upper_bound; [lia|].
      rewrite Nat2Z.inj_succ, Z.pow_succ_r in Hn by lia. lia. }
    assert (0 < fuel)%nat as Hfuel'.
    { destruct fuel; [|lia]. simpl in Hn'. lia. }
    destruct (IH (n / 10) (digit_char (n mod 10) :: acc) Hn' Hfuel')
      as (ds & Heq & Hne & Hall & Hnc & Hv).
    exists (ds ++ [digit_char (n mod 10)]). split_and!.
    + rewrite Heq. by rewrite <- app_assoc.
    + by destruct ds.
    + rewrite forallb_app. simpl. by rewrite Hall, Hdig.
    + apply not_elem_of_app. split; [done|].
      apply not_elem_of_cons. split; [congruence | apply not_elem_of_nil].
    + intros a. rewrite decimal_value_app, Hv. simpl. rewrite Hval.
      rewrite length_app. simpl. rewrite Nat2Z.inj_add. simpl Z.of_nat.
      rewrite Z.pow_add_r by lia.
      pose proof (Z.div_mod n 10). lia.
Qed.

Lemma to_decimal_spec n :
  0 ≤ n < 10 ^ 20 →
  to_decimal n ≠ [] ∧ forallb is_digit (to_decimal n) = true ∧
  (":"%char ∉ to_decimal n) ∧ decimal_value (to_decimal n) 0 = n.
Proof.
  intros Hn. unfold to_decimal.
  destruct (n <? 0) eqn:Hneg; [apply Z.ltb_lt in Hneg; lia|].
  destruct (decimal_digits_spec 20 n [] ltac:(simpl; lia) ltac:(lia))
    as (ds & -> & Hne & Hall & Hnc & Hv).
  rewrite app_nil_r. split_and!; try done; rewrite Hv; lia.
Qed.

(** ** Round trips of the five headers *)

Lemma ContentLength_round_trip v this :
  0 ≤ v < 2 ^ 64 →
  ContentLength.parse (ContentLength.write (ContentLength.new v) []) this
  = (Parsed, ContentLength.new v).
Proof.
  intros Hv. unfold ContentLength.write, ContentLength.new. simpl.
  destruct (to_decimal_spec v ltac:(lia)) as (Hne & Hall & _ & Hval).
  rewrite <- (app_nil_r (to_decimal v)).
  rewrite ContentLength_parse_run by done.
  rewrite Hval, Z.mod_small by lia. done.
Qed.

Lemma split_last_None sep s : sep ∉ s → split_last sep s = None.
Proof.
  induction s as [|c s IH]; intros Hs; simpl; [done|].
  apply not_elem_of_cons in Hs as [Hc Hs].
  rewrite IH by done.
  case_bool_decide; [congruence|done].
Qed.

Lemma split_last_app sep l r :
  sep ∉ r → split_last sep (l ++ sep :: r) = Some (l, r).
Proof.
  intros Hr. induction l as [|c l IH]; simpl.
  - rewrite split_last_None by done. by rewrite bool_decide_eq_true_2.
  - by rewrite IH.
Qed.

Lemma Host_round_trip h p this :
  0 ≤ p ≤ 32767 ∨ (p = -1 ∧ ":"%char ∉ h) →
  Host.parse (Host.write (Host.new h p) []) this = (Parsed, Host.new h p).
Proof.
  intros [Hp | [-> Hh]]; unfold Host.write, Host.parse, Host.new; simpl.
  - destruct (p =? -1) eqn:E; [apply Z.eqb_eq in E; lia|].
    destruct (to_decimal_spec p ltac:(lia)) as (Hne & Hall & Hnc & Hval).
    rewrite split_last_app by done.
    rewrite Hall, Hval. rewrite bool_decide_eq_false_2 by done. simpl.
    destruct (p <=? 32767) eqn:E'; [done|]. apply Z.leb_gt in E'. lia.
  - by rewrite split_last_None.
Qed.

Lemma split_whitespace_token t :
  is_token t → split_whitespace t = [t].
Proof.
  intros [Hne Hns]. induction t as [|c t IH]; [done|].
  simpl in Hns. apply andb_true_iff in Hns as [Hc Hns].
  apply negb_true_iff in Hc. simpl. rewrite Hc.
  destruct t as [|c' t]; [done|].
  pose proof Hns as Hns'. simpl in Hns'.
  apply andb_true_iff in Hns' as [Hc' _]. apply negb_true_iff in Hc'.
  rewrite Hc'. by rewrite IH.
Qed.

Lemma split_whitespace_token_space t rest :
  is_token t →
  split_whitespace (t ++ " "%char :: rest) = t :: split_whitespace rest.
Proof.
  intros [Hne Hns]. induction t as [|c t IH]; [done|].
  simpl in Hns. apply andb_true_iff in Hns as [Hc Hns].
  apply negb_true_iff in Hc.
  change ((c :: t) ++ " "%char :: rest) with (c :: (t ++ " "%char :: rest)).
  destruct t as [|c' t].
  - simpl. rewrite Hc. done.
  - pose proof Hns as Hns'. simpl in Hns'.
    apply andb_true_iff in Hns' as [Hc' _]. apply negb_true_iff in Hc'.
    specialize (IH ltac:(done) Hns).
    change ((c' :: t) ++ " "%char :: rest)
      with (c' :: (t ++ " "%char :: rest)) in *.
    remember (t ++ " "%char :: rest) as tail.
    simpl. simpl in IH. rewrite Hc, Hc'. rewrite Hc' in IH.
    by rewrite IH.
Qed.

Lemma split_join_tokens toks :
  Forall is_token toks → split_whitespace (join_space toks) = toks.
Proof.
  induction 1 as [|t toks Ht Htoks IH]; [done|].
  destruct toks as [|t' toks].
  - simpl. by apply split_whitespace_token.
  - change (join_space (t :: t' :: toks))
      with (t ++ " "%char :: join_space (t' :: toks)).
    rewrite split_whitespace_token_space by done. by rewrite IH.
Qed.

Lemma Server_round_trip toks this :
  Forall is_token toks →
  Server.parse (Server.write (Server.new toks) []) this
  = (Parsed, Server.new toks).
Proof.
  intros Htoks. unfold Server.parse, Server.write, Server.new. simpl.
  by rewrite split_join_tokens.
Qed.

Lemma ContentEncoding_round_trip e this :
  ContentEncoding.parseRaw
    (ContentEncoding.write (ContentEncoding.new e) []) this
  = (Parsed, ContentEncoding.new e).
Proof. by destruct e. Qed.

Lemma all_MediaTypes_complete m : m ∈ Mime.all_MediaTypes.
Proof.
  destruct m as [t s x]. unfold Mime.all_MediaTypes.
  apply list_elem_of_bind. exists t. split; [|apply elem_of_enum].
  apply list_elem_of_bind. exists s. split; [|apply elem_of_enum].
  apply list_elem_of_bind. exists x. split; [|apply elem_of_enum].
  by apply list_elem_of_singleton.
Qed.

(** Checked on every value: parsing the text of a media type gives the
    value back, suffix included. *)
Lemma MediaType_round_trip_all :
  Forall (λ m, Mime.fromString (Mime.toString_total m) = m)
         Mime.all_MediaTypes.
Proof. by_evaluation. Qed.

Lemma MediaType_round_trip m : Mime.fromString (Mime.toString_total m) = m.
Proof.
  apply (proj1 (Forall_forall _ _) MediaType_round_trip_all).
  apply all_MediaTypes_complete.
Qed.

(** The total rendering is [toString]'s text wherever that has one. *)
Lemma toString_total_agrees_all :
  Forall (λ m, Is_true match Mime.toString m with
                       | Some text => bool_decide (Mime.toString_total m = text)
                       | None => true
                       end)
         Mime.all_MediaTypes.
Proof. by_evaluation. Qed.

Lemma toString_total_agrees m text :
  Mime.toString m = Some text → Mime.toString_total m = text.
Proof.
  intros Htext.
  pose proof (proj1 (Forall_forall _ _) toString_total_agrees_all m
                (all_MediaTypes_complete m)) as Hm.
  simpl in Hm. rewrite Htext in Hm. by apply bool_decide_unpack in Hm.
Qed.

Lemma ContentType_round_trip m this :
  ContentType.parseRaw (ContentType.write (ContentType.new m) []) this
  = (Parsed, ContentType.new m).
Proof.
  unfold ContentType.write, ContentType.parseRaw, ContentType.new. simpl.
  pose proof (MediaType_round_trip m) as Hrt.
  unfold Mime.fromString in Hrt. by rewrite Hrt.
Qed.

(** *** Where the round trip of [Host] and [Server] fails *)

Lemma split_last_Some sep s :
  sep ∈ s → ∃ l r, split_last sep s = Some (l, r) ∧ s = l ++ sep :: r.
Proof.
  induction s as [|c s IH]; intros Hin; [by apply elem_of_nil in Hin|].
  simpl. destruct (decide (sep ∈ s)) as [Hs | Hs].
  - destruct (IH Hs) as (l & r & -> & ->). by exists (c :: l), r.
  - rewrite split_last_None by done.
    apply elem_of_cons in Hin as [-> | Hin]; [|done].
    rewrite bool_decide_eq_true_2 by done. by exists [], s.
Qed.

(** A host with a colon and no port is not parsed back. *)
Lemma Host_colon_not_parsed_back h this :
  ":"%char ∈ h →
  Host.parse (Host.write (Host.new h (-1)) []) this ≠ (Parsed, Host.new h (-1)).
Proof.
  intros Hin. unfold Host.write, Host.parse, Host.new. simpl.
  destruct (split_last_Some _ _ Hin) as (l & r & -> & Hh).
  destruct (_ && _); [|done].
  intros [= Hl _]. apply (f_equal length) in Hl. rewrite Hh in Hl.
  rewrite length_app in Hl. simpl in Hl. lia.
Qed.

(** A negative port other than -1 is written with a sign, which is no
    digit. *)
Lemma Host_negative_port_malformed h p this :
  -32768 ≤ p < -1 →
  Host.parse (Host.write (Host.new h p) []) this
  = (MalformedHeaderValue Host.Name (h ++ ":"%char :: to_decimal p), this).
Proof.
  intros Hp. unfold Host.write, Host.parse, Host.new. simpl.
  destruct (p =? -1) eqn:E; [apply Z.eqb_eq in E; lia|].
  unfold to_decimal. destruct (p <? 0) eqn:Hneg; [|apply Z.ltb_ge in Hneg; lia].
  destruct (decimal_digits_spec 20 (- p) [] ltac:(simpl; lia) ltac:(lia))
    as (ds & -> & _ & _ & Hnc & _).
  rewrite app_nil_r. rewrite split_last_app.
  - assert (forallb is_digit ("-"%char :: ds) = false) as -> by reflexivity.
    by rewrite andb_false_r.
  - apply not_elem_of_cons. split; [done|done].
Qed.

Lemma is_token_cons c t :
  isspace c = false → (t = [] ∨ is_token t) → is_token (c :: t).
Proof.
  intros Hc Ht. split; [done|]. simpl. rewrite Hc. simpl.
  destruct Ht as [-> | [_ Ht]]; done.
Qed.

(** What [split_whitespace] returns are tokens. *)
Lemma split_whitespace_tokens s : Forall is_token (split_whitespace s).
Proof.
  induction s as [|c s IH]; [constructor|].
  change (split_whitespace (c :: s)) with
    (if isspace c then split_whitespace s
     else match s with
          | [] => [[c]]
          | c' :: _ =>
              if isspace c' then [c] :: split_whitespace s
              else match split_whitespace s with
                   | t :: ts => (c :: t) :: ts
                   | [] => [[c]]
                   end
          end).
  destruct (isspace c) eqn:Hc; [done|].
  destruct s as [|c' s'].
  - constructor; [|constructor]. apply is_token_cons; [done | by left].
  - destruct (isspace c') eqn:Hc'.
    + constructor; [|done]. apply is_token_cons; [done | by left].
    + destruct (split_whitespace (c' :: s')) as [|t ts].
      * constructor; [|constructor]. apply is_token_cons; [done | by left].
      * apply Forall_cons in IH as [Ht Hts].
        constructor; [|done]. apply is_token_cons; [done | by right].
Qed.

Lemma Server_round_trip_iff toks this :
  Server.parse (Server.write (Server.new toks) []) this
  = (Parsed, Server.new toks) ↔ Forall is_token toks.
Proof.
  split; [|apply Server_round_trip].
  unfold Server.parse, Server.write, Server.new. simpl.
  intros [= Heq]. rewrite <- Heq. apply split_whitespace_tokens.
Qed.

Lemma Host_round_trip_iff h p this :
  -32768 ≤ p ≤ 32767 →
  Host.parse (Host.write (Host.new h p) []) this = (Parsed, Host.new h p) ↔
  0 ≤ p ∨ (p = -1 ∧ ":"%char ∉ h).
Proof.
  intros Hp. split.
  - intros Hrt.
    destruct (decide (0 ≤ p)) as [|Hneg]; [by left|]. right.
    destruct (decide (p = -1)) as [-> | Hne].
    + split; [done|]. intros Hin.
      by apply (Host_colon_not_parsed_back h this).
    + rewrite Host_negative_port_malformed in Hrt by lia. done.
  - intros [Hpos | Hnone]; apply Host_round_trip; [left; lia | by right].
Qed.

(** ** Tokens outside the tables *)











(** C6, as stated, fails for [Host] and [Server]: the host ::1 without a
    port is written as ::1 and parsed back as host : with port 1; a port
    -5 is written with a sign and rejected as malformed; a single token
    with a space in it is parsed back as two tokens, and an empty token is
    not parsed back at all. *)
Lemma Host_Server_round_trip_fails :
  Host.parse (Host.write (Host.new1 (lit "::1")) []) Host.new0
  = (Parsed, Host.new (lit ":") 1) ∧
  Host.parse (Host.write (Host.new (lit "example.com") (-5)) []) Host.new0
  = (MalformedHeaderValue Host.Name (lit "example.com:-5"), Host.new0) ∧
  Server.parse (Server.write (Server.new1 (lit "Apache 2")) []) Server.new0
  = (Parsed, Server.new [lit "Apache"; lit "2"]) ∧
  Server.parse (Server.write (Server.new1 (lit "")) []) Server.new0
  = (Parsed, Server.new []) ∧
  ¬ (∀ x this, Host.parse (Host.write x []) this = (Parsed, x)) ∧
  ¬ (∀ x this, Server.parse (Server.write x []) this = (Parsed, x)).
Proof.
  split_and!; [reflexivity..| |].
  - intros Hrt. specialize (Hrt (Host.new1 (lit "::1")) Host.new0).
    vm_compute in Hrt. congruence.
  - intros Hrt. specialize (Hrt (Server.new1 (lit "Apache 2")) Server.new0).
    vm_compute in Hrt. congruence.
Qed.

(** C6, amended: parsing what [write] produced gives the value back for
    every [ContentLength] (a 64-bit value), every [ContentEncoding] and
    every [ContentType] (equal under [operator==], and in fact in the
    suffix too); for a [Host] (with a 16-bit port) exactly when the port is
    not negative, or is -1 with a host free of colons; and for a [Server]
    exactly when its tokens are non-empty and free of whitespace. *)
Theorem headers_round_trip :
  (∀ v this,
     0 ≤ v < 2 ^ 64 →
     ContentLength.parse (ContentLength.write (ContentLength.new v) []) this
     = (Parsed, ContentLength.new v)) ∧
  (∀ h p this,
     -32768 ≤ p ≤ 32767 →
     Host.parse (Host.write (Host.new h p) []) this = (Parsed, Host.new h p)
     ↔ 0 ≤ p ∨ (p = -1 ∧ ":"%char ∉ h)) ∧
  (∀ toks this,
     Server.parse (Server.write (Server.new toks) []) this
     = (Parsed, Server.new toks)
     ↔ Forall is_token toks) ∧
  (∀ e this,
     ContentEncoding.parseRaw
       (ContentEncoding.write (ContentEncoding.new e) []) this
     = (Parsed, ContentEncoding.new e)) ∧
  (∀ m this,
     ∃ y,
       ContentType.parseRaw (ContentType.write (ContentType.new m) []) this
       = (Parsed, y) ∧
       (ContentType.mime_ y == m) = true ∧ y = ContentType.new m).
Proof.
  split_and!.
  - apply ContentLength_round_trip.
  - apply Host_round_trip_iff.
  - apply Server_round_trip_iff.
  - apply ContentEncoding_round_trip.
  - intros m this. exists (ContentType.new m).
    split_and!; [apply ContentType_round_trip | | done].
    unfold Mime.eq_op. simpl. by rewrite !bool_decide_eq_true_2.
Qed.

(** ** The theorems at concrete inputs *)

Example header_cast_on_example_memory :
  match header_cast (Obj:=HeaderObject) Host.decl,
        header_cast (Obj:=HeaderObject) ContentLength.decl with
  | Instantiated to_Host, Instantiated to_ContentLength =>
      to_Host example_handle example_memory
      = Some (mk_shared_ptr (Some 1%nat) (Some 7%nat),
              mkMemory (objects example_memory) {[ 7%nat := 2%nat ]}) ∧
      to_ContentLength example_handle example_memory
      = Some (nullptr, example_memory)
  | _, _ => False
  end.
Proof. split; reflexivity. Qed.

(** On a null handle [from->hash()] is evaluated all the same: the call
    has no defined result. *)
Example header_cast_on_null_handle :
  match header_cast (Obj:=HeaderObject) Host.decl with
  | Instantiated to_Host => to_Host nullptr example_memory = None
  | _ => False
  end.
Proof. reflexivity. Qed.

Lemma header_cast_iff_tag_witness :
  IsHeader.value Host.decl = true ∧
  static_Hash Host.decl = Some Host.Hash ∧
  (∃ cast : shared_ptr non_const Header_decl → Memory HeaderObject →
            option (shared_ptr non_const Host.decl * Memory HeaderObject),
      header_cast Host.decl = Instantiated cast ∧
      cast_contract Host.Hash cast) ∧
  (∃ cast : shared_ptr const Header_decl → Memory HeaderObject →
            option (shared_ptr const Host.decl * Memory HeaderObject),
      header_cast_const Host.decl = Instantiated cast ∧
      cast_contract Host.Hash cast).
Proof.
  split; [reflexivity|]. split; [reflexivity|].
  apply (header_cast_iff_tag Host.decl Host.Hash); reflexivity.
Defined.

Lemma concrete_tags_distinct_witness :
  ∃ tag cast,
    static_Hash ContentLength.decl = Some tag ∧
    header_cast (Obj:=HeaderObject) ContentLength.decl = Instantiated cast ∧
    cast example_handle example_memory = Some (nullptr, example_memory).
Proof.
  destruct concrete_tags_distinct as (_ & _ & _ & Hcast).
  destruct (Hcast ContentLength.decl) as (tag & cast & Htag & Hc & Hcall).
  { by_evaluation. }
  exists tag, cast. split_and!; [done..|].
  destruct (Hcall example_handle example_memory 1%nat
              (Host_obj (Host.new (lit "example.com") 8080))
              eq_refl eq_refl) as [Hother _].
  apply (Hother Host.decl eq_refl). vm_compute. congruence.
Defined.


Lemma headers_round_trip_witness :
  ContentLength.parse
    (ContentLength.write (ContentLength.new 18446744073709551615) [])
    ContentLength.new0
  = (Parsed, ContentLength.new 18446744073709551615) ∧
  Host.parse (Host.write (Host.new (lit "example.com") 8080) []) Host.new0
  = (Parsed, Host.new (lit "example.com") 8080) ∧
  Server.parse (Server.write (Server.new [lit "foo/1.0"; lit "bar/2.0"]) [])
               Server.new0
  = (Parsed, Server.new [lit "foo/1.0"; lit "bar/2.0"]) ∧
  (∃ y, ContentType.parseRaw
          (ContentType.write ContentType.new0 []) ContentType.new0
        = (Parsed, y) ∧ y = ContentType.new0).
Proof.
  destruct headers_round_trip as (HCL & HHost & HServer & _ & HCT).
  split_and!.
  - apply HCL. lia.
  - apply HHost; [lia|]. left. lia.
  - apply HServer. repeat constructor; done.
  - destruct (HCT Mime.MediaType0 ContentType.new0) as (y & Hy & _ & ->).
    by exists (ContentType.new Mime.MediaType0).
Defined.

Lemma ContentLength_parse_policy_witness :
  is_digit "-"%char = false ∧
  ContentLength.parse (lit "-1") (ContentLength.new 7)
  = (MalformedHeaderValue ContentLength.Name (lit "-1"), ContentLength.new 7) ∧
  ContentLength.parse (lit "42; x") ContentLength.new0
  = (Parsed, ContentLength.new 42).
Proof.
  destruct ContentLength_parse_policy as (_ & _ & _ & Hbad & Hrun).
  split_and!.
  - reflexivity.
  - apply (Hbad "-"%char (lit "1")). reflexivity.
  - apply (Hrun (lit "42") (lit "; x")); [done | reflexivity | reflexivity].
Defined.

Lemma accessors_do_not_mutate_witness :
  ∃ vs, read_all [ (example_handle, a_host); (example_handle, a_port);
                   (example_handle, a_name) ] example_memory
        = Some (vs, example_memory).
Proof.
  destruct accessors_do_not_mutate as (_ & _ & _ & Hread).
  apply Hread.
  repeat constructor; simpl;
    exists 1%nat, (Host_obj (Host.new (lit "example.com") 8080));
    (split_and!; [reflexivity | reflexivity | by eexists]).
Defined.

Lemma ContentEncoding_parseRaw_never_fails_witness :
  Compress ≠ Unknown ∧
  ((ContentEncoding.encoding
      (ContentEncoding.parseRaw (lit " compress") ContentEncoding.new0).2).1
   = Compress ↔
   trim (lit " compress") = lit (encodingString Compress)).
Proof.
  destruct ContentEncoding_parseRaw_never_fails as (_ & Hknown & _).
  split; [done | by apply Hknown].
Defined.

(** * More of the header *)

(** ** [detail::hash] *)

(** X1: on every platform [detail::hash] is the 64-bit FNV-1a hash of the
    bytes before the terminator when they read the same as [char]s: for
    every string where plain [char] is unsigned, and for the strings of
    bytes below 0x80 where it is signed. *)
Theorem hash_is_fnv1a_on_plain_bytes sg bs beyond :
  Forall (plain_byte sg) bs →
  detail.hash (c_str sg bs beyond) = Some (detail.fnv1a bs).
Proof. apply hash_fnv1a_plain. Qed.

Lemma hash_is_fnv1a_on_plain_bytes_witness :
  Forall (plain_byte true) [72; 111; 115; 116] ∧
  detail.hash (c_str true [72; 111; 115; 116] [0; 65])
  = Some (detail.fnv1a [72; 111; 115; 116]).
Proof.
  assert (Forall (plain_byte true) [72; 111; 115; 116]) as Hplain
    by (repeat constructor; lia).
  split; [done|]. by apply hash_is_fnv1a_on_plain_bytes.
Defined.

Lemma hash_one_stops c : ∀ cs value rest,
  detail.hash_one c (cs ++ 0 :: rest) value
  = detail.hash_one c (cs ++ [0]) value.
Proof.
  intros cs. revert c. induction cs as [|c' cs IH]; intros c value rest; simpl.
  - destruct (c =? 0); [done|]. by rewrite !hash_one_NUL.
  - destruct (c =? 0); [done|]. apply IH.
Qed.

Lemma hash_one_unterminated cs : ∀ c value,
  c ≠ 0 → 0 ∉ cs → detail.hash_one c cs value = None.
Proof.
  induction cs as [|c' cs IH]; intros c value Hc Hcs; simpl.
  - by rewrite (proj2 (Z.eqb_neq c 0) Hc).
  - rewrite (proj2 (Z.eqb_neq c 0) Hc).
    apply not_elem_of_cons in Hcs as [Hc' Hcs]. apply IH; [congruence|done].
Qed.

(** X2: [detail::hash] reads up to the first NUL and no further: what
    follows it in memory does not change the result, and the hash of the
    empty string is the basis.  It is defined exactly on the arrays that
    hold a NUL. *)
Theorem hash_reads_up_to_NUL :
  (∀ str rest, detail.hash (str ++ 0 :: rest) = detail.hash (str ++ [0])) ∧
  (∀ rest, detail.hash (0 :: rest) = Some detail.basis) ∧
  (∀ str, is_Some (detail.hash str) ↔ 0 ∈ str).
Proof.
  split_and!.
  - intros [|c cs] rest; simpl.
    + by rewrite !hash_one_NUL.
    + apply hash_one_stops.
  - intros rest. simpl. apply hash_one_NUL.
  - intros str. split.
    + intros Hsome. destruct (decide (0 ∈ str)) as [|Hnot]; [done|].
      destruct str as [|c cs]; [by destruct Hsome|].
      apply not_elem_of_cons in Hnot as [Hc Hcs]. simpl in Hsome.
      rewrite hash_one_unterminated in Hsome by (done || congruence).
      by destruct Hsome.
    + intros (cs & rest & ->)%list_elem_of_split.
      destruct cs as [|c cs]; simpl.
      * rewrite hash_one_NUL. done.
      * apply hash_one_terminated.
Qed.

Lemma u64_range z : 0 ≤ u64 z < 2 ^ 64.
Proof. unfold u64. apply Z.mod_pos_bound. lia. Qed.

Lemma hash_one_range remain : ∀ c value v,
  0 ≤ value < 2 ^ 64 →
  detail.hash_one c remain value = Some v → 0 ≤ v < 2 ^ 64.
Proof.
  induction remain as [|r remain IH]; intros c value v Hvalue; simpl.
  - destruct (c =? 0); [|done]. by intros [= <-].
  - destruct (c =? 0); [by intros [= <-]|].
    apply IH. apply u64_range.
Qed.

(** X3: a hash [detail::hash] returns is a 64-bit value. *)
Theorem hash_range str v :
  detail.hash str = Some v → 0 ≤ v < 2 ^ 64.
Proof.
  destruct str as [|c remain]; [done|]. simpl.
  apply hash_one_range. unfold detail.basis. lia.
Qed.

Lemma hash_range_witness :
  detail.hash (string_literal true "Content-Type") = Some ContentType.Hash ∧
  0 ≤ ContentType.Hash < 2 ^ 64.
Proof.
  assert (detail.hash (string_literal true "Content-Type")
          = Some ContentType.Hash) as Hhash by (vm_compute; reflexivity).
  split; [done|]. by apply (hash_range _ _ Hhash).
Defined.

Lemma char_of_byte_signed b :
  0 < b < 256 →
  (char_of_byte true b =? 0) = false ∧
  u64 (char_of_byte true b) = sign_extended b.
Proof.
  intros Hb. unfold char_of_byte, sign_extended. simpl.
  destruct (128 <=? b) eqn:Hhigh.
  - apply Z.leb_le in Hhigh.
    rewrite (proj2 (Z.ltb_ge b 128)) by lia. split.
    + apply Z.eqb_neq. lia.
    + unfold u64. symmetry. apply (Z.mod_unique_pos _ _ (-1)); lia.
  - apply Z.leb_gt in Hhigh.
    rewrite (proj2 (Z.ltb_lt b 128)) by lia. split.
    + apply Z.eqb_neq. lia.
    + apply u64_small. lia.
Qed.

Lemma hash_one_signed bs : ∀ b value beyond,
  0 < b < 256 → Forall (λ b, 0 < b < 256) bs →
  detail.hash_one (char_of_byte true b)
                  (map (char_of_byte true) bs ++ 0 :: beyond) value
  = Some (fold_left (λ acc b, detail.fnv1a_step acc (sign_extended b))
                    (b :: bs) value).
Proof.
  induction bs as [|b' bs IH]; intros b value beyond Hb Hbs;
    destruct (char_of_byte_signed b Hb) as [Hnz Hu];
    simpl map; simpl app; rewrite hash_one_step by done; rewrite Hu.
  - by rewrite hash_one_NUL.
  - apply Forall_cons in Hbs as [Hb' Hbs]. by rewrite IH.
Qed.

(** X4: where plain [char] is signed, [detail::hash] of any string is the
    FNV-1a fold in which a byte from 0x80 on is XORed with its upper 56
    bits set: the fold runs over the sign-extended bytes. *)
Theorem hash_signed_char_fold bs beyond :
  Forall (λ b, 0 < b < 256) bs →
  detail.hash (c_str true bs beyond)
  = Some (fold_left (λ acc b, detail.fnv1a_step acc (sign_extended b))
                    bs detail.basis).
Proof.
  intros Hbs. unfold c_str, detail.hash.
  destruct bs as [|b bs]; simpl map; simpl app.
  - apply hash_one_NUL.
  - apply Forall_cons in Hbs as [Hb Hbs]. by apply hash_one_signed.
Qed.

Lemma hash_signed_char_fold_witness :
  Forall (λ b, 0 < b < 256) [195; 156] ∧
  detail.hash (c_str true [195; 156] [])
  = Some (fold_left (λ acc b, detail.fnv1a_step acc (sign_extended b))
                    [195; 156] detail.basis).
Proof.
  assert (Forall (λ b, 0 < b < 256) [195; 156]) as Hbs
    by (repeat constructor; lia).
  split; [done|]. by apply hash_signed_char_fold.
Defined.

(** Multiplication by the prime is invertible modulo 2^64. *)
Lemma mul_prime_inj x y :
  0 ≤ x < 2 ^ 64 → 0 ≤ y < 2 ^ 64 →
  (x * detail.prime) mod 2 ^ 64 = (y * detail.prime) mod 2 ^ 64 → x = y.
Proof.
  intros Hx Hy Heq.
  assert (∀ z, 0 ≤ z < 2 ^ 64 →
    (((z * detail.prime) mod 2 ^ 64) * prime_inverse) mod 2 ^ 64 = z) as Hinv.
  { intros z Hz. rewrite Z.mul_mod_idemp_l by lia.
    rewrite <- Z.mul_assoc, Z.mul_mod by lia.
    replace ((detail.prime * prime_inverse) mod 2 ^ 64) with 1
      by (vm_compute; reflexivity).
    rewrite Z.mul_1_r, Z.mod_mod by lia. apply Z.mod_small. lia. }
  rewrite <- (Hinv x Hx), <- (Hinv y Hy). by rewrite Heq.
Qed.

Lemma lxor_range a b :
  0 ≤ a < 2 ^ 64 → 0 ≤ b < 2 ^ 64 → 0 ≤ Z.lxor a b < 2 ^ 64.
Proof.
  intros Ha Hb. split; [apply Z.lxor_nonneg; lia|].
  destruct (decide (Z.lxor a b = 0)) as [->|Hnz]; [lia|].
  assert (0 < Z.lxor a b) as Hpos
    by (pose proof (proj2 (Z.lxor_nonneg a b)); lia).
  apply Z.log2_lt_pow2; [done|].
  pose proof (Z.log2_lxor a b ltac:(lia) ltac:(lia)) as Hlog.
  assert (Z.log2 a < 64) as Hla.
  { destruct (decide (a = 0)) as [->|]; [simpl; lia|].
    apply Z.log2_lt_pow2; lia. }
  assert (Z.log2 b < 64) as Hlb.
  { destruct (decide (b = 0)) as [->|]; [simpl; lia|].
    apply Z.log2_lt_pow2; lia. }
  lia.
Qed.

Lemma lxor_inj_r a e e' : Z.lxor a e = Z.lxor a e' → e = e'.
Proof.
  intros Heq. apply (f_equal (Z.lxor a)) in Heq.
  by rewrite <- !Z.lxor_assoc, Z.lxor_nilpotent, !Z.lxor_0_l in Heq.
Qed.

Lemma lxor_inj_l a a' e : Z.lxor a e = Z.lxor a' e → a = a'.
Proof. rewrite !(Z.lxor_comm _ e). apply lxor_inj_r. Qed.

Lemma fnv1a_step_range acc e : 0 ≤ detail.fnv1a_step acc e < 2 ^ 64.
Proof. unfold detail.fnv1a_step. apply Z.mod_pos_bound. lia. Qed.

Lemma fnv1a_step_inj_octet acc e e' :
  0 ≤ acc < 2 ^ 64 → 0 ≤ e < 2 ^ 64 → 0 ≤ e' < 2 ^ 64 →
  detail.fnv1a_step acc e = detail.fnv1a_step acc e' → e = e'.
Proof.
  intros Ha He He' Heq. unfold detail.fnv1a_step in Heq.
  apply mul_prime_inj in Heq; [|by apply lxor_range..].
  by apply lxor_inj_r in Heq.
Qed.

Lemma fnv1a_step_inj_acc acc acc' e :
  0 ≤ acc < 2 ^ 64 → 0 ≤ acc' < 2 ^ 64 → 0 ≤ e < 2 ^ 64 →
  detail.fnv1a_step acc e = detail.fnv1a_step acc' e → acc = acc'.
Proof.
  intros Ha Ha' He Heq. unfold detail.fnv1a_step in Heq.
  apply mul_prime_inj in Heq; [|by apply lxor_range..].
  by apply lxor_inj_l in Heq.
Qed.

Lemma fold_fnv1a_range bs acc :
  0 ≤ acc < 2 ^ 64 → 0 ≤ fold_left detail.fnv1a_step bs acc < 2 ^ 64.
Proof.
  revert acc. induction bs as [|b bs IH]; intros acc Hacc; simpl; [done|].
  apply IH, fnv1a_step_range.
Qed.

Lemma plain_bytes_are_octets sg bs :
  Forall (plain_byte sg) bs → Forall (λ b, 0 ≤ b < 2 ^ 64) bs.
Proof. intros Hbs. eapply Forall_impl; [exact Hbs|]. intros b [Hb _]. lia. Qed.

Lemma fold_fnv1a_inj bs : ∀ acc acc',
  0 ≤ acc < 2 ^ 64 → 0 ≤ acc' < 2 ^ 64 →
  Forall (λ b, 0 ≤ b < 2 ^ 64) bs →
  fold_left detail.fnv1a_step bs acc = fold_left detail.fnv1a_step bs acc' →
  acc = acc'.
Proof.
  induction bs as [|b bs IH]; intros acc acc' Ha Ha' Hbs Heq; simpl in Heq;
    [done|].
  apply Forall_cons in Hbs as [Hb Hbs].
  apply IH in Heq; [|apply fnv1a_step_range..|done].
  by apply fnv1a_step_inj_acc in Heq.
Qed.

Lemma fold_signed_plain bs acc :
  Forall (plain_byte true) bs →
  fold_left (λ acc b, detail.fnv1a_step acc (sign_extended b)) bs acc
  = fold_left detail.fnv1a_step bs acc.
Proof.
  revert acc. induction bs as [|b bs IH]; intros acc Hbs; simpl; [done|].
  apply Forall_cons in Hbs as [[Hb Hs] Hbs]. specialize (Hs eq_refl).
  unfold sign_extended at 2. rewrite (proj2 (Z.ltb_lt b 128)) by done.
  by apply IH.
Qed.

(** X5: where plain [char] is signed, [detail::hash] differs from the
    FNV-1a hash on every string that holds exactly one byte from 0x80 on,
    wherever that byte stands. *)
Theorem hash_differs_on_one_high_byte pre b post beyond :
  Forall (plain_byte true) pre → 128 ≤ b < 256 →
  Forall (plain_byte true) post →
  detail.hash (c_str true (pre ++ b :: post) beyond)
  ≠ Some (detail.fnv1a (pre ++ b :: post)).
Proof.
  intros Hpre Hb Hpost.
  rewrite hash_signed_char_fold.
  2:{ apply Forall_app. split; [|apply Forall_cons; split; [lia|]].
      - eapply Forall_impl; [exact Hpre|]. by intros ? [? _].
      - eapply Forall_impl; [exact Hpost|]. by intros ? [? _]. }
  unfold detail.fnv1a. rewrite !fold_left_app. simpl.
  rewrite (fold_signed_plain pre) by done.
  rewrite (fold_signed_plain post) by done.
  set (A := fold_left detail.fnv1a_step pre detail.basis).
  assert (0 ≤ A < 2 ^ 64) as HA
    by (apply fold_fnv1a_range; unfold detail.basis; lia).
  intros [= Heq].
  apply fold_fnv1a_inj in Heq;
    [|apply fnv1a_step_range..|by eapply plain_bytes_are_octets].
  apply fnv1a_step_inj_octet in Heq; [|done|..].
  - unfold sign_extended in Heq.
    rewrite (proj2 (Z.ltb_ge b 128)) in Heq by lia. lia.
  - unfold sign_extended. rewrite (proj2 (Z.ltb_ge b 128)) by lia. lia.
  - lia.
Qed.

Lemma hash_differs_on_one_high_byte_witness :
  Forall (plain_byte true) [88; 45] ∧ 128 ≤ 233 < 256 ∧
  Forall (plain_byte true) [116; 97; 116] ∧
  detail.hash (c_str true ([88; 45] ++ 233 :: [116; 97; 116]) [])
  ≠ Some (detail.fnv1a ([88; 45] ++ 233 :: [116; 97; 116])).
Proof.
  assert (Forall (plain_byte true) [88; 45]) as Hpre
    by (repeat constructor; lia).
  assert (Forall (plain_byte true) [116; 97; 116]) as Hpost
    by (repeat constructor; lia).
  split_and!; [done | lia | lia | done |].
  apply hash_differs_on_one_high_byte; [done | lia | done].
Defined.

(** X16: two strings of plain bytes that differ in exactly one position
    never get the same hash, on either kind of platform. *)
Theorem hash_separates_one_byte_difference sg pre b b' post beyond beyond' :
  Forall (plain_byte sg) pre → plain_byte sg b → plain_byte sg b' →
  Forall (plain_byte sg) post → b ≠ b' →
  detail.hash (c_str sg (pre ++ b :: post) beyond)
  ≠ detail.hash (c_str sg (pre ++ b' :: post) beyond').
Proof.
  intros Hpre Hb Hb' Hpost Hne.
  rewrite !hash_fnv1a_plain
    by (apply Forall_app; split; [done | by apply Forall_cons]).
  unfold detail.fnv1a. rewrite !fold_left_app. simpl.
  set (A := fold_left detail.fnv1a_step pre detail.basis).
  assert (0 ≤ A < 2 ^ 64) as HA
    by (apply fold_fnv1a_range; unfold detail.basis; lia).
  intros [= Heq].
  apply fold_fnv1a_inj in Heq;
    [|apply fnv1a_step_range..|by eapply plain_bytes_are_octets].
  destruct Hb as [Hb _], Hb' as [Hb' _].
  apply fnv1a_step_inj_octet in Heq; [done | done | lia | lia].
Qed.

Lemma hash_separates_one_byte_difference_witness :
  Forall (plain_byte true) [72; 111] ∧ plain_byte true 115 ∧
  plain_byte true 116 ∧ Forall (plain_byte true) [116] ∧ 115 ≠ 116 ∧
  detail.hash (c_str true ([72; 111] ++ 115 :: [116]) [])
  ≠ detail.hash (c_str true ([72; 111] ++ 116 :: [116]) []).
Proof.
  assert (Forall (plain_byte true) [72; 111]) as Hpre
    by (repeat constructor; lia).
  assert (plain_byte true 115) as Hb by (split; lia).
  assert (plain_byte true 116) as Hb' by (split; lia).
  assert (Forall (plain_byte true) [116]) as Hpost
    by (repeat constructor; lia).
  split_and!; [done | done | done | done | lia |].
  apply hash_separates_one_byte_difference; [done | done | done | done | lia].
Defined.

Lemma hash_one_continues c cs2 rest v cs1 : ∀ c1 value,
  c1 ≠ 0 → 0 ∉ cs1 →
  detail.hash_one c1 (cs1 ++ [0]) value = Some v →
  detail.hash_one c1 (cs1 ++ c :: cs2 ++ 0 :: rest) value
  = detail.hash_one c (cs2 ++ 0 :: rest) v.
Proof.
  induction cs1 as [|c1' cs1 IH]; intros c1 value Hc1 Hnz; simpl;
    rewrite (proj2 (Z.eqb_neq c1 0)) by done.
  - by intros [= <-].
  - apply not_elem_of_cons in Hnz as [Hc1' Hnz].
    apply IH; [congruence | done].
Qed.

(** X6: hashing goes on from the hash of a prefix: when the characters
    [cs1] hold no NUL and hash to [v], the hash of a longer string is what
    [hash_one] computes over the rest starting from [v]. *)
Theorem hash_continues_from_prefix cs1 c cs2 rest v :
  0 ∉ cs1 →
  detail.hash (cs1 ++ [0]) = Some v →
  detail.hash (cs1 ++ c :: cs2 ++ 0 :: rest)
  = detail.hash_one c (cs2 ++ 0 :: rest) v.
Proof.
  intros Hnz. unfold detail.hash.
  destruct cs1 as [|c1 cs1]; simpl.
  - by intros [= <-].
  - apply not_elem_of_cons in Hnz as [Hc1 Hnz].
    apply hash_one_continues; [congruence | done].
Qed.

Lemma hash_continues_from_prefix_witness :
  (0 ∉ [72; 111]) ∧
  detail.hash ([72; 111] ++ [0]) = Some 659593760081677192 ∧
  detail.hash ([72; 111] ++ 115 :: [116] ++ 0 :: [])
  = detail.hash_one 115 ([116] ++ 0 :: []) 659593760081677192.
Proof.
  assert (0 ∉ [72; 111]) as Hnz by by_evaluation.
  assert (detail.hash ([72; 111] ++ [0]) = Some 659593760081677192) as Hv
    by (vm_compute; reflexivity).
  split_and!; [done | done |].
  by apply hash_continues_from_prefix.
Defined.

(** ** The [NAME] macro on the seven classes *)

(** X7: on an object of one of the seven classes the overriders that
    [NAME] generates return the static members of its class, and the tag
    is [detail::hash] of the name, whichever way plain [char] is signed:
    the FNV-1a hash of the name. *)
Theorem NAME_members_agree o D :
  dynamic_type o = Some D →
  static_Name D = Some (name o) ∧
  static_Hash D = Some (hash o) ∧
  (∀ sg, detail.hash (string_literal sg (name o)) = Some (hash o)) ∧
  hash o = detail.fnv1a (map byte_val (lit (name o))).
Proof.
  destruct o; intros [= <-]; split_and!; try reflexivity;
    try (intros sg; destruct sg); vm_compute; reflexivity.
Qed.

Lemma NAME_members_agree_witness :
  dynamic_type (Server_obj (Server.new1 (lit "nginx"))) = Some Server.decl ∧
  static_Name Server.decl = Some (name (Server_obj (Server.new1 (lit "nginx")))) ∧
  static_Hash Server.decl = Some (hash (Server_obj (Server.new1 (lit "nginx")))).
Proof.
  split; [reflexivity|].
  destruct (NAME_members_agree (Server_obj (Server.new1 (lit "nginx")))
              Server.decl eq_refl) as (HName & HHash & _).
  by split.
Defined.

(** X8: among objects of the seven classes, two have the same [name()]
    exactly when they are of the same class, and the same [hash()] exactly
    when they are of the same class. *)
Theorem name_and_tag_identify_class o1 o2 D1 D2 :
  dynamic_type o1 = Some D1 → dynamic_type o2 = Some D2 →
  (name o1 = name o2 ↔ D1 = D2) ∧ (hash o1 = hash o2 ↔ D1 = D2).
Proof.
  destruct o1; intros [= <-]; destruct o2; intros [= <-];
    (split; split; intros Heq; first
       [ reflexivity | exfalso; vm_compute in Heq; discriminate Heq ]).
Qed.

Lemma name_and_tag_identify_class_witness :
  hash (Accept_obj Accept.new0) ≠ hash (UserAgent_obj UserAgent.new0).
Proof.
  destruct (name_and_tag_identify_class
              (Accept_obj Accept.new0) (UserAgent_obj UserAgent.new0)
              Accept.decl UserAgent.decl eq_refl eq_refl) as [_ [Htag _]].
  intros Heq. apply Htag in Heq. vm_compute in Heq. discriminate Heq.
Defined.

(** ** [IsHeader] and [header_cast] *)

Section more_cast.
Context {Obj : Type} `{Header Obj}.

(** X11: the cast looks at the object through [hash()] only: two objects
    with the same [hash()] get the same answer, whatever their classes. *)
Theorem header_cast_sees_only_the_tag To tag :
  IsHeader.value To = true → static_Hash To = Some tag →
  ∃ cast,
    header_cast To = Instantiated cast ∧
    ∀ h p objs1 objs2 cnt o1 o2,
      get h = Some p → objs1 !! p = Some o1 → objs2 !! p = Some o2 →
      hash o1 = hash o2 →
      fst <$> cast h (mkMemory objs1 cnt) = fst <$> cast h (mkMemory objs2 cnt).
Proof.
  intros HIs HHash. unfold header_cast. rewrite HIs, HHash.
  eexists. split; [reflexivity|].
  intros h p objs1 objs2 cnt o1 o2 Hp Ho1 Ho2 Hhash.
  cbv beta. rewrite Hp. simpl. rewrite Ho1, Ho2. simpl. rewrite Hhash.
  by case_bool_decide.
Qed.

(** X12: the two overloads do the same: on handles with the same address
    and control block they return the same address and control block and
    leave the same store; only the constness of the pointer type differs. *)
Theorem header_cast_overloads_agree To
    (h : shared_ptr non_const Header_decl) (hc : shared_ptr const Header_decl)
    (m : Memory Obj) :
  get h = get hc → control h = control hc →
  match header_cast To, header_cast_const To with
  | Instantiated cast, Instantiated cast_c =>
      cast_outcome (cast h m) = cast_outcome (cast_c hc m)
  | NotViable, NotViable | IllFormed, IllFormed => True
  | _, _ => False
  end.
Proof.
  destruct h as [g c], hc as [g' c']. simpl. intros <- <-.
  unfold header_cast, header_cast_const.
  destruct (IsHeader.value To), (static_Hash To) as [tag|]; try done.
  simpl. destruct g as [p|]; simpl; [|done].
  destruct (objects m !! p) as [o|]; simpl; [|done].
  by case_bool_decide.
Qed.

End more_cast.

Lemma header_cast_sees_only_the_tag_witness :
  ∃ cast, header_cast (Obj:=HeaderObject) Host.decl = Instantiated cast ∧
          dynamic_type (Derived_obj "X-Impostor" Host.Hash) = None ∧
          fst <$> cast example_handle impostor_memory
          = fst <$> cast example_handle example_memory.
Proof.
  destruct (header_cast_sees_only_the_tag (Obj:=HeaderObject)
              Host.decl Host.Hash eq_refl eq_refl) as (cast & Hcast & Hsame).
  exists cast. split_and!; [done | reflexivity |].
  apply (Hsame example_handle 1%nat _ _ _
           (Derived_obj "X-Impostor" Host.Hash)
           (Host_obj (Host.new (lit "example.com") 8080)));
    reflexivity.
Defined.

Lemma header_cast_overloads_agree_witness :
  match header_cast (Obj:=HeaderObject) Host.decl,
        header_cast_const (Obj:=HeaderObject) Host.decl with
  | Instantiated cast, Instantiated cast_c =>
      cast_outcome (cast example_handle example_memory)
      = cast_outcome (cast_c (mk_shared_ptr (Some 1%nat) (Some 7%nat))
                             example_memory)
  | _, _ => False
  end.
Proof.
  apply (header_cast_overloads_agree (Obj:=HeaderObject) Host.decl
           example_handle (mk_shared_ptr (Some 1%nat) (Some 7%nat))
           example_memory); reflexivity.
Defined.

(** X13: the handle a successful cast returns reads the same object: every
    accessor called through it returns what it returns through the original
    handle, and the store the cast left stays as it is. *)
Theorem read_through_cast_handle To tag :
  IsHeader.value To = true → static_Hash To = Some tag →
  ∃ cast,
    header_cast (Obj:=HeaderObject) To = Instantiated cast ∧
    ∀ h m p o,
      get h = Some p → objects m !! p = Some o → hash o = tag →
      ∃ r m',
        cast h m = Some (r, m') ∧
        ∀ a, read r a m' = (λ vm, (vm.1, m')) <$> read h a m.
Proof.
  intros HIs HHash.
  destruct (header_cast_instantiated (Obj:=HeaderObject) To tag HIs HHash)
    as (cast & Hcast & Hcontract).
  exists cast. split; [done|].
  intros h m p o Hp Ho Htag.
  destruct (Hcontract h m p o Hp Ho) as (r & m' & Hr & Hobj & _ & Heq & _).
  destruct (Heq Htag) as (Hget & _ & _).
  exists r, m'. split; [done|].
  intros a. unfold read. rewrite Hget, Hp. simpl. rewrite Hobj, Ho. simpl.
  destruct (call_accessor a o) as [[v o']|] eqn:Hcall; simpl; [|done].
  apply call_accessor_unchanged in Hcall as ->.
  do 2 f_equal. destruct m' as [objs' cnt']. simpl in *. subst objs'.
  f_equal. by apply insert_id.
Qed.

Lemma read_through_cast_handle_witness :
  ∃ cast r m',
    header_cast (Obj:=HeaderObject) Host.decl = Instantiated cast ∧
    cast example_handle example_memory = Some (r, m') ∧
    read r a_port m' = Some (v_int16 8080, m').
Proof.
  destruct (read_through_cast_handle Host.decl Host.Hash eq_refl eq_refl)
    as (cast & Hcast & Hread).
  destruct (Hread example_handle example_memory 1%nat
              (Host_obj (Host.new (lit "example.com") 8080))
              eq_refl eq_refl eq_refl) as (r & m' & Hr & Hsame).
  exists cast, r, m'. split_and!; [done | done |].
  rewrite Hsame. reflexivity.
Defined.

(** ** Media types *)

(** X14: [operator==] on [MediaType] is an equivalence relation: it is
    reflexive, symmetric and transitive, and it holds between identical
    values. *)
Theorem MediaType_eq_equivalence :
  (∀ a : Mime.MediaType, (a == a) = true) ∧
  (∀ a b : Mime.MediaType, (a == b) = (b == a)) ∧
  (∀ a b c : Mime.MediaType,
     (a == b) = true → (b == c) = true → (a == c) = true) ∧
  (∀ a b : Mime.MediaType, a = b → (a == b) = true).
Proof.
  assert (∀ a b, (a == b) = true ↔
                 Mime.top a = Mime.top b ∧ Mime.sub a = Mime.sub b) as Hiff.
  { intros a b. unfold Mime.eq_op.
    by rewrite andb_true_iff, !bool_decide_eq_true. }
  split_and!.
  - intros a. by apply Hiff.
  - intros a b. apply eq_true_iff_eq. rewrite !Hiff.
    split; intros [-> ->]; done.
  - intros a b c [Hab1 Hab2]%Hiff [Hbc1 Hbc2]%Hiff. apply Hiff.
    split; congruence.
  - intros a b ->. by apply Hiff.
Qed.

Lemma MediaType_eq_equivalence_witness :
  (MIME3 Mime.Type_.Text Mime.Subtype.Xml Mime.Suffix.Zip
   == MIME Mime.Type_.Text Mime.Subtype.Xml) = true ∧
  (MIME Mime.Type_.Text Mime.Subtype.Xml
   == MIME3 Mime.Type_.Text Mime.Subtype.Xml Mime.Suffix.Xml) = true ∧
  (MIME3 Mime.Type_.Text Mime.Subtype.Xml Mime.Suffix.Zip
   == MIME3 Mime.Type_.Text Mime.Subtype.Xml Mime.Suffix.Xml) = true.
Proof.
  destruct MediaType_eq_equivalence as (_ & _ & Htrans & _).
  assert ((MIME3 Mime.Type_.Text Mime.Subtype.Xml Mime.Suffix.Zip
           == MIME Mime.Type_.Text Mime.Subtype.Xml) = true) as H1
    by reflexivity.
  assert ((MIME Mime.Type_.Text Mime.Subtype.Xml
           == MIME3 Mime.Type_.Text Mime.Subtype.Xml Mime.Suffix.Xml) = true)
    as H2 by reflexivity.
  split_and!; [done | done |]. exact (Htrans _ _ _ H1 H2).
Defined.

(** X15: the X-macro tables are unambiguous: within [MIME_TYPES], within
    [MIME_SUBTYPES] and within [MIME_SUFFIXES] no token and no enumerator
    occurs twice, and each enumeration is its table's enumerators, in
    order, followed by [Ext] ([None] and [Ext] for the suffixes). *)
Theorem MIME_tables_unambiguous :
  NoDup (Mime.MIME_TYPES.*2) ∧ NoDup (Mime.MIME_TYPES.*1) ∧
  NoDup (Mime.MIME_SUBTYPES.*2) ∧ NoDup (Mime.MIME_SUBTYPES.*1) ∧
  NoDup ((Mime.MIME_SUFFIXES.*1).*2) ∧ NoDup ((Mime.MIME_SUFFIXES.*1).*1) ∧
  enum Mime.Type_.t = Mime.MIME_TYPES.*1 ++ [Mime.Type_.Ext] ∧
  enum Mime.Subtype.t = Mime.MIME_SUBTYPES.*1 ++ [Mime.Subtype.Ext] ∧
  enum Mime.Suffix.t
  = (Mime.MIME_SUFFIXES.*1).*1 ++ [Mime.Suffix.None; Mime.Suffix.Ext].
Proof. split_and!; first [ reflexivity | by_evaluation ]. Qed.
